(** * VLSM calculator: a shallow embedding of [js/script.js]

    The program reads a base network in CIDR notation and a list of host
    counts, sizes one subnet per host count, sorts the subnets by size
    (largest first) and lays them out one after the other from the base
    address.  This file embeds the functions of [script.js] and proves the
    properties of the address arithmetic, the prefix sizing, the allocation
    walk and the CIDR parser.

    Numbers.  JavaScript numbers are IEEE doubles.  Every number the address
    arithmetic handles is an integer far below 2^53, where double arithmetic
    is exact, so these are modelled in [Z]; the 32-bit conversions that the
    bit operators apply ([ToInt32], [ToUint32], shift counts taken modulo 32)
    are written out.  Host counts are integers, as the data model has them;
    the sizer only adds 2 to a host count and compares the sum with powers of
    two up to 2^32, which double arithmetic decides as [Z] does.  Only the
    parser meets numbers that are not integers (the result of [Number] on a
    string); there a number is a [JSNum]. *)

From Stdlib Require Import ZArith List String Ascii Bool Lia.
From Stdlib Require Import QArith Qround Qabs Qpower Lqa.
From Stdlib Require Import Permutation Sorted.
From Stdlib Require Import DecimalString.
Import ListNotations.
Local Open Scope string_scope.
Local Open Scope Z_scope.

(* ================================================================== *)
(** * Part I: definitions                                              *)
(* ================================================================== *)

(** ** JavaScript integer operators *)

Module JS.

(** [ToUint32] and [ToInt32] of an integer-valued number. *)
Definition ToUint32 (x : Z) : Z := x mod 2 ^ 32.
Definition ToInt32 (x : Z) : Z := (x + 2 ^ 31) mod 2 ^ 32 - 2 ^ 31.

(** The shift count of [<<] and [>>>] is [ToUint32] of the right operand
    masked to its five low bits. *)
Definition shiftCount (n : Z) : Z := Z.land (ToUint32 n) 31.

(** [a << n]: the left operand as an int32, the result as an int32. *)
Definition shl (a n : Z) : Z := ToInt32 (Z.shiftl (ToInt32 a) (shiftCount n)).

(** [a >>> n]: the left operand as a uint32, zero filled. *)
Definition ushr (a n : Z) : Z := Z.shiftr (ToUint32 a) (shiftCount n).

(** [a & b], [a | b] and [~a] work on int32 operands and give an int32. *)
Definition band (a b : Z) : Z := Z.land (ToInt32 a) (ToInt32 b).
Definition bor (a b : Z) : Z := Z.lor (ToInt32 a) (ToInt32 b).
Definition bnot (a : Z) : Z := Z.lnot (ToInt32 a).

(** [Math.pow(2, e)] for an integer exponent [0 <= e]; the program calls it
    with [e = 32 - prefixLength] and a prefix length between 0 and 32. *)
Definition pow2 (e : Z) : Z := 2 ^ e.

(** [String(n)] for an integer-valued number of magnitude below 10^21,
    which JavaScript prints in plain decimal. *)
Definition toString (n : Z) : string := NilZero.string_of_int (Z.to_int n).

(** [Array.prototype.join] on an array of such numbers. *)
Definition join (sep : string) (l : list Z) : string :=
  String.concat sep (map toString l).

(** Stable insertion by a comparator: [x] goes before the first element
    that the comparator does not put strictly before it. *)
Fixpoint insert {A : Type} (cmp : A -> A -> Z) (x : A) (l : list A) : list A :=
  match l with
  | [] => [x]
  | y :: l' => if cmp x y <=? 0 then x :: l else y :: insert cmp x l'
  end.

(** [Array.prototype.sort(cmp)]: the specification requires a stable sort
    (ECMAScript 2019 and later), so for a consistent comparator the result
    is the one of any stable sort; insertion sort is the reference. *)
Fixpoint sort {A : Type} (cmp : A -> A -> Z) (l : list A) : list A :=
  match l with
  | [] => []
  | x :: l' => insert cmp x (sort cmp l')
  end.

End JS.

Notation "a << n" := (JS.shl a n) (at level 32, left associativity) : Z_scope.
Notation "a >>> n" := (JS.ushr a n) (at level 32, left associativity) : Z_scope.
Notation "a .& b" := (JS.band a b) (at level 33, left associativity) : Z_scope.
Notation "a .| b" := (JS.bor a b) (at level 34, left associativity) : Z_scope.
Notation ".~ a" := (JS.bnot a) (at level 31, right associativity) : Z_scope.

(** ** Addresses *)

(** An address is an array of four octets.  [ip.[i]] reads element [i]; every
    caller passes a four-element array, so the default is never read. *)
Definition octet (ip : list Z) (i : nat) : Z := nth i ip 0.
Notation "ip .[ i ]" := (octet ip i) (at level 1, format "ip .[ i ]") : Z_scope.

(** The expression [~(0xffffffff >>> prefixLength) >>> 0] that
    [calculateNetworkAddress], [calculateBroadcastAddress] and
    [prefixLengthToSubnetMask] each bind to [mask]. *)
Definition mask (prefixLength : Z) : Z := (.~ (0xffffffff >>> prefixLength)) >>> 0.

Definition ipToInt (ip : list Z) : Z :=
  (ip.[0] << 24) + (ip.[1] << 16) + (ip.[2] << 8) + ip.[3].

Definition intToIp (int : Z) : list Z :=
  [ (int >>> 24) .& 255; (int >>> 16) .& 255; (int >>> 8) .& 255; int .& 255 ].

Definition calculateNetworkAddress (ip : list Z) (prefixLength : Z) : list Z :=
  let mask := mask prefixLength in
  let ipInt := (ip.[0] << 24) + (ip.[1] << 16) + (ip.[2] << 8) + ip.[3] in
  let networkInt := ipInt .& mask in
  [ (networkInt >>> 24) .& 255; (networkInt >>> 16) .& 255;
    (networkInt >>> 8) .& 255; networkInt .& 255 ].

Definition calculateBroadcastAddress (ip : list Z) (prefixLength : Z) : list Z :=
  let mask := mask prefixLength in
  let ipInt := (ip.[0] << 24) + (ip.[1] << 16) + (ip.[2] << 8) + ip.[3] in
  let broadcastInt := ipInt .| .~ mask in
  [ (broadcastInt >>> 24) .& 255; (broadcastInt >>> 16) .& 255;
    (broadcastInt >>> 8) .& 255; broadcastInt .& 255 ].

(** [usableRange] returns a two-element array whose elements are strings or
    [null]; [None] is [null]. *)
Definition usableRange (ip : list Z) (prefixLength : Z) : option string * option string :=
  let network := calculateNetworkAddress ip prefixLength in
  let broadcast := calculateBroadcastAddress ip prefixLength in
  let networkInt :=
    (network.[0] << 24) + (network.[1] << 16) + (network.[2] << 8) + network.[3] in
  let broadcastInt :=
    (broadcast.[0] << 24) + (broadcast.[1] << 16) + (broadcast.[2] << 8) + broadcast.[3] in
  if prefixLength >=? 31 then
    if prefixLength =? 31
    then (Some (JS.join "." network), Some (JS.join "." broadcast))
    else (None, None)
  else
    let firstHostInt := networkInt + 1 in
    let firstHost :=
      [ (firstHostInt >>> 24) .& 255; (firstHostInt >>> 16) .& 255;
        (firstHostInt >>> 8) .& 255; firstHostInt .& 255 ] in
    let lastHostInt := broadcastInt - 1 in
    let lastHost :=
      [ (lastHostInt >>> 24) .& 255; (lastHostInt >>> 16) .& 255;
        (lastHostInt >>> 8) .& 255; lastHostInt .& 255 ] in
    (Some (JS.join "." firstHost), Some (JS.join "." lastHost)).

Definition prefixLengthToSubnetMask (prefixLength : Z) : string :=
  let mask := mask prefixLength in
  JS.join "." [ (mask >>> 24) .& 255; (mask >>> 16) .& 255; (mask >>> 8) .& 255; mask .& 255 ].

(** ** Prefix sizing *)

(** The [while (prefixLength > 0)] loop of [getRequiredPrefixLength]: the
    recursion is on the loop variable itself, which the body decrements. *)
Fixpoint sizerLoop (totalAddresses : Z) (prefixLength : nat) : nat :=
  match prefixLength with
  | O => O
  | S prefixLength' =>
      let subnetSize := JS.pow2 (32 - Z.of_nat prefixLength) in
      if subnetSize >=? totalAddresses then prefixLength
      else sizerLoop totalAddresses prefixLength'
  end.

Definition getRequiredPrefixLength (hosts : Z) : Z :=
  let totalAddresses := hosts + 2 in
  Z.of_nat (sizerLoop totalAddresses 32).

(** ** Strings that may be absent *)

(** [!x] for [x] a string, [null] or [undefined] ([None] stands for the last
    two): both and the empty string are falsy. *)
Definition falsy (x : option string) : bool :=
  match x with
  | None => true
  | Some s => String.eqb s ""
  end.

(** The string itself, where [x] is known to be one. *)
Definition elementOr (x : option string) : string :=
  match x with Some s => s | None => "" end.

(** ** Allocation: the body of [calculateVLSM] after its inputs are parsed *)

(** The objects of the [subnets] array. *)
Record Subnet := mkSubnet { hosts : Z; prefixLength : Z; subnetSize : Z }.

(** The objects of the [subnetDetails] array. *)
Record Details := mkDetails {
  name : string;
  network : string;
  broadcast : string;
  hostRange : string;
  subnetMask : string
}.

(** What one call of the allocation callback computes: its locals
    ([network], [prefixLength], [broadcast], [firstHost], [lastHost]), the
    subnet and index it was called with, and the [details] it returns. *)
Record Row := mkRow {
  row_index : nat;
  row_subnet : Subnet;
  row_network : list Z;
  row_prefixLength : Z;
  row_broadcast : list Z;
  row_firstHost : option string;
  row_lastHost : option string;
  row_details : Details
}.

(** A computation that may throw [new Error(message)]. *)
Inductive Result (A : Type) : Type :=
| Ok (value : A)
| Throw (message : string).
Arguments Ok {A} value.
Arguments Throw {A} message.

Definition requiredSubnets (hostRequirements : list Z) : list Subnet :=
  map (fun hosts =>
         {| hosts := hosts;
            prefixLength := getRequiredPrefixLength hosts;
            subnetSize := JS.pow2 (32 - getRequiredPrefixLength hosts) |})
      hostRequirements.

(** The comparator [(a, b) => b.subnetSize - a.subnetSize]. *)
Definition bySizeDesc (a b : Subnet) : Z := subnetSize b - subnetSize a.

Definition totalAddressesNeeded (subnets : list Subnet) : Z :=
  fold_left (fun sum subnet => sum + subnetSize subnet) subnets 0.

(** One call of the callback of [subnets.map((subnet, index) => ...)], at the
    current value of the captured variable [currentIp]. *)
Definition allocateOne (currentIp : Z) (subnet : Subnet) (index : nat) : Row :=
  let network := intToIp currentIp in
  let prefixLength := prefixLength subnet in
  let broadcast := calculateBroadcastAddress network prefixLength in
  let '(firstHost, lastHost) := usableRange network prefixLength in
  let details :=
    {| name := "Subnet " ++ JS.toString (Z.of_nat index + 1) ++ " ("
               ++ JS.toString (hosts subnet) ++ " hosts)";
       network := JS.join "." network ++ "/" ++ JS.toString prefixLength;
       broadcast := JS.join "." broadcast;
       hostRange :=
         if negb (falsy firstHost) && negb (falsy lastHost)
         then elementOr firstHost ++ " - " ++ elementOr lastHost
         else "No usable hosts";
       subnetMask := prefixLengthToSubnetMask prefixLength |} in
  {| row_index := index; row_subnet := subnet; row_network := network;
     row_prefixLength := prefixLength; row_broadcast := broadcast;
     row_firstHost := firstHost; row_lastHost := lastHost;
     row_details := details |}.

(** The [map] over the sorted subnets; each call ends with
    [currentIp += subnet.subnetSize]. *)
Fixpoint allocateFrom (currentIp : Z) (index : nat) (subnets : list Subnet) : list Row :=
  match subnets with
  | [] => []
  | subnet :: rest =>
      allocateOne currentIp subnet index
      :: allocateFrom (currentIp + subnetSize subnet) (S index) rest
  end.

Definition notEnough : string :=
  "Not enough addresses available for the given requirements.".

(** Lines 134-170: from the parsed base network and host counts to the rows
    of the plan, or the thrown error. *)
Definition allocate (ip : list Z) (prefixLength : Z) (hostRequirements : list Z)
  : Result (list Row) :=
  let subnets := requiredSubnets hostRequirements in
  let subnets := JS.sort bySizeDesc subnets in
  let totalAddressesNeeded := totalAddressesNeeded subnets in
  let availableAddresses := JS.pow2 (32 - prefixLength) in
  if totalAddressesNeeded >? availableAddresses then Throw notEnough
  else
    let currentIp := ipToInt ip in
    Ok (allocateFrom currentIp 0 subnets).

(** The page elements that [calculateVLSM] writes. *)
Record Page := mkPage {
  resultsHidden : bool;
  errorHidden : bool;
  subnetList : list Details;
  errorText : string
}.

(** The mark that the [catch] block puts before the message (the bytes of
    the source file). *)
Definition errorMark : string :=
  String (ascii_of_nat 195) (String (ascii_of_nat 162)
    (String (ascii_of_nat 197) (String (ascii_of_nat 146) " "))).

(** [calculateVLSM] from the parsed inputs on: reset the page, run the
    allocation, then show the list or, in the [catch] block, the error. *)
Definition calculateVLSM (ip : list Z) (prefixLength : Z) (hostRequirements : list Z) : Page :=
  let reset :=
    {| resultsHidden := true; errorHidden := true; subnetList := []; errorText := "" |} in
  match allocate ip prefixLength hostRequirements with
  | Ok rows =>
      {| resultsHidden := false;
         errorHidden := errorHidden reset;
         subnetList := subnetList reset ++ map row_details rows;
         errorText := errorText reset |}
  | Throw message =>
      {| resultsHidden := resultsHidden reset;
         errorHidden := false;
         subnetList := subnetList reset;
         errorText := errorMark ++ message |}
  end.

(** ** JavaScript strings and string-to-number conversion *)

(** A string is a sequence of code units; the model covers code units below
    256.  A number that need not be an integer is a [JSNum]: [NaN], an
    infinity, or a finite double given by its exact rational value in lowest
    terms.  The two zeros are one value here: no comparison of the program
    tells them apart. *)
Inductive JSNum : Type :=
| NaN
| Infinity (negative : bool)
| Finite (value : Q).

Module JSString.

(** [s.split(sep)] for a one-character separator: never empty. *)
Fixpoint split (sep : ascii) (s : string) : list string :=
  match s with
  | EmptyString => [EmptyString]
  | String c s' =>
      if Ascii.eqb c sep then EmptyString :: split sep s'
      else match split sep s' with
           | w :: ws => String c w :: ws
           | [] => [String c EmptyString]
           end
  end.

(** White space and line terminators (below 256): TAB, LF, VT, FF, CR,
    SP and NBSP. *)
Definition isWhite (c : ascii) : bool :=
  let n := nat_of_ascii c in
  (Nat.leb 9 n && Nat.leb n 13) || Nat.eqb n 32 || Nat.eqb n 160.

Fixpoint trimStart (s : string) : string :=
  match s with
  | String c s' => if isWhite c then trimStart s' else s
  | EmptyString => EmptyString
  end.

Fixpoint trimEnd (s : string) : string :=
  match s with
  | EmptyString => EmptyString
  | String c s' =>
      let t := trimEnd s' in
      if isWhite c && String.eqb t "" then EmptyString else String c t
  end.

Definition trim (s : string) : string := trimEnd (trimStart s).

(** The value of a character as a digit: 0-9, then a-z and A-Z from 10. *)
Definition digitOf (c : ascii) : option Z :=
  let n := Z.of_nat (nat_of_ascii c) in
  if (48 <=? n) && (n <=? 57) then Some (n - 48)
  else if (97 <=? n) && (n <=? 122) then Some (n - 87)
  else if (65 <=? n) && (n <=? 90) then Some (n - 55)
  else None.

Definition digitIn (radix : Z) (c : ascii) : option Z :=
  match digitOf c with
  | Some d => if d <? radix then Some d else None
  | None => None
  end.

(** The longest prefix of radix-[radix] digits, and the rest. *)
Fixpoint spanDigits (radix : Z) (s : string) : list Z * string :=
  match s with
  | EmptyString => ([], EmptyString)
  | String c s' =>
      match digitIn radix c with
      | Some d => let '(ds, rest) := spanDigits radix s' in (d :: ds, rest)
      | None => ([], s)
      end
  end.

Definition valueOf (radix : Z) (ds : list Z) : Z :=
  fold_left (fun acc d => acc * radix + d) ds 0.

Definition isEmpty {A : Type} (l : list A) : bool :=
  match l with [] => true | _ => false end.

End JSString.

Module JSNumber.

Local Open Scope Q_scope.

(** [floor (log2 a)] for a rational [a > 0]. *)
Definition floorLog2 (a : Q) : Z :=
  let e := (Z.log2 (Qnum a) - Z.log2 (Zpos (Qden a)))%Z in
  if Qle_bool (Qpower 2 e) a then e else (e - 1)%Z.

(** Nearest integer to [x >= 0], ties to the even one. *)
Definition roundHalfEven (x : Q) : Z :=
  let f := Qfloor x in
  match Qcompare (x - inject_Z f) (1 # 2) with
  | Lt => f
  | Gt => (f + 1)%Z
  | Eq => if Z.even f then f else (f + 1)%Z
  end.

(** The Number value for a real: the nearest binary64 double, ties to
    even, an infinity from 2^1024 on.  53 significant bits; the exponent
    is not below -1022 (subnormals). *)
Definition ofReal (q : Q) : JSNum :=
  if Qeq_bool q 0 then Finite 0
  else
    let a := Qabs q in
    let e := Z.max (floorLog2 a) (-1022) in
    let m := roundHalfEven (a * Qpower 2 (52 - e)) in
    let v := inject_Z m * Qpower 2 (e - 52) in
    if Qle_bool (Qpower 2 1024) v then Infinity (negb (Qle_bool 0 q))
    else Finite (Qred (if Qle_bool 0 q then v else - v)).

Definition ofZ (n : Z) : JSNum := ofReal (inject_Z n).

Definition isNaN (x : JSNum) : bool :=
  match x with NaN => true | _ => false end.

(** [x < y] and [x > y] against a finite [y]; false when [x] is [NaN]. *)
Definition lt (x : JSNum) (y : Q) : bool :=
  match x with
  | NaN => false
  | Infinity negative => negative
  | Finite q => negb (Qle_bool y q)
  end.

Definition gt (x : JSNum) (y : Q) : bool :=
  match x with
  | NaN => false
  | Infinity negative => negb negative
  | Finite q => negb (Qle_bool q y)
  end.

Import JSString.

(** An optional sign: the factor and the rest. *)
Definition signOf (s : string) : Z * string :=
  match s with
  | String "-" r => ((-1)%Z, r)
  | String "+" r => (1%Z, r)
  | _ => (1%Z, s)
  end.

(** [parseInt(string)] with no radix: leading white space is skipped, a
    sign and a [0x] prefix are read, then the longest run of digits;
    whatever follows is ignored.  [NaN] when there is no digit. *)
Definition parseInt (str : string) : JSNum :=
  let input := trimStart str in
  let '(sign, input) := signOf input in
  let '(radix, input) :=
    match input with
    | String "0" (String "x" r) => (16%Z, r)
    | String "0" (String "X" r) => (16%Z, r)
    | _ => (10%Z, input)
    end in
  let '(digits, _) := spanDigits radix input in
  if isEmpty digits then NaN
  else ofZ (sign * valueOf radix digits).

(** [ExponentPart] (or nothing) up to the end of the string. *)
Definition exponentPart (s : string) : option Z :=
  match s with
  | EmptyString => Some 0%Z
  | String c r =>
      if Ascii.eqb c "e" || Ascii.eqb c "E" then
        let '(sign, r) := signOf r in
        let '(ds, rest) := spanDigits 10 r in
        if isEmpty ds || negb (String.eqb rest "") then None
        else Some (sign * valueOf 10 ds)%Z
      else None
  end.

(** [StrUnsignedDecimalLiteral]: its mathematical value, or [None] when
    the string is not one.  [Infinity] is handled by the caller. *)
Definition unsignedDecimal (s : string) : option Q :=
  let '(int, r) := spanDigits 10 s in
  let '(frac, r) :=
    match r with
    | String "." r' => spanDigits 10 r'
    | _ => ([], r)
    end in
  if isEmpty int && isEmpty frac then None
  else
    match exponentPart r with
    | None => None
    | Some e =>
        Some (inject_Z (valueOf 10 (int ++ frac)%list)
              * Qpower 10 (e - Z.of_nat (List.length frac)))
    end.

(** [NonDecimalIntegerLiteral]: [0b], [0o] or [0x] and digits to the end. *)
Definition nonDecimal (s : string) : option Z :=
  match s with
  | String "0" (String c r) =>
      let radix :=
        if Ascii.eqb c "x" || Ascii.eqb c "X" then Some 16%Z
        else if Ascii.eqb c "o" || Ascii.eqb c "O" then Some 8%Z
        else if Ascii.eqb c "b" || Ascii.eqb c "B" then Some 2%Z
        else None in
      match radix with
      | Some R =>
          let '(ds, rest) := spanDigits R r in
          if isEmpty ds || negb (String.eqb rest "") then None
          else Some (valueOf R ds)
      | None => None
      end
  | _ => None
  end.

(** [Number(string)]: the string is trimmed; the empty string is 0; a
    numeric literal gives its rounded value and anything else [NaN]. *)
Definition Number (str : string) : JSNum :=
  let text := trim str in
  if String.eqb text "" then Finite 0
  else
    match nonDecimal text with
    | Some n => ofZ n
    | None =>
        let '(sign, body) := signOf text in
        if String.eqb body "Infinity" then Infinity (sign <? 0)%Z
        else
          match unsignedDecimal body with
          | Some mv => ofReal (inject_Z sign * mv)
          | None => NaN
          end
    end.

End JSNumber.

(** ** The CIDR parser *)

(** The object [{ ip: octets, prefixLength }] that [parseCIDR] returns. *)
Record Cidr := mkCidr { cidr_ip : list JSNum; cidr_prefixLength : JSNum }.

Definition parseCIDR (subnet : string) : Result Cidr :=
  let parts := JSString.split "/" subnet in
  let ip := nth_error parts 0 in
  let prefix := nth_error parts 1 in
  if falsy ip || falsy prefix then Throw "Invalid CIDR format"
  else
    let prefixLength := JSNumber.parseInt (elementOr prefix) in
    if JSNumber.isNaN prefixLength || JSNumber.lt prefixLength 0
       || JSNumber.gt prefixLength 32
    then Throw "Invalid prefix length"
    else
      let octets := map JSNumber.Number (JSString.split "." (elementOr ip)) in
      if negb (Nat.eqb (List.length octets) 4)
         || existsb (fun o => JSNumber.isNaN o || JSNumber.lt o 0 || JSNumber.gt o 255)
                    octets
      then Throw "Invalid IP address"
      else Ok {| cidr_ip := octets; cidr_prefixLength := prefixLength |}.

(** ** The host requirements input *)

Definition invalidHosts : string :=
  "Invalid host requirements. Please enter comma-separated numbers.".

(** Lines 128-132 of [calculateVLSM]: the (trimmed) text of the host
    requirements field is split on commas and each field converted with
    [Number]; a [NaN] among the results is an error. *)
Definition parseHostRequirements (hostRequirementsInput : string) : Result (list JSNum) :=
  let hostRequirements :=
    map JSNumber.Number (JSString.split "," hostRequirementsInput) in
  if existsb JSNumber.isNaN hostRequirements then Throw invalidHosts
  else Ok hostRequirements.

(** ** Vocabulary of the statements *)

(** A well-formed address: four octets, each between 0 and 255. *)
Definition validAddress (ip : list Z) : Prop :=
  List.length ip = 4%nat /\ Forall (fun o => 0 <= o <= 255) ip.

(** The unsigned 32-bit value of an address, most significant octet first. *)
Definition addressValue (ip : list Z) : Z :=
  ip.[0] * 2 ^ 24 + ip.[1] * 2 ^ 16 + ip.[2] * 2 ^ 8 + ip.[3].

(** The four octets of an unsigned 32-bit value. *)
Definition octetsOf (u : Z) : list Z :=
  [ (u / 2 ^ 24) mod 256; (u / 2 ^ 16) mod 256; (u / 2 ^ 8) mod 256; u mod 256 ].

(** The number of addresses of a block with prefix length [p]. *)
Definition blockSize (p : Z) : Z := 2 ^ (32 - p).

(** The sum of the block sizes that the host counts require. *)
Definition blockSizeSum (hostRequirements : list Z) : Z :=
  fold_right Z.add 0
    (map (fun h => blockSize (getRequiredPrefixLength h)) hostRequirements).

(** The label of the entry at 1-based position [k] for [h] hosts. *)
Definition label (k : Z) (h : Z) : string :=
  "Subnet " ++ JS.toString k ++ " (" ++ JS.toString h ++ " hosts)".

(** The address range that a row reports: from its network field to its
    broadcast field. *)
Definition rangeLow (r : Row) : Z := addressValue (row_network r).
Definition rangeHigh (r : Row) : Z := addressValue (row_broadcast r).

(** The addresses that a list of subnets takes. *)
Definition sizeSum (subnets : list Subnet) : Z :=
  fold_right (fun subnet acc => subnetSize subnet + acc) 0 subnets.

(** The subnets of one size, in the order of the list. *)
Definition ofSize (s : Z) (subnets : list Subnet) : list Subnet :=
  filter (fun subnet => subnetSize subnet =? s) subnets.

(** Larger blocks first: the order the sort establishes. *)
Definition largerFirst (a b : Subnet) : Prop := subnetSize b <= subnetSize a.

(** What the sizer guarantees of every subnet of the working list. *)
Definition sized (s : Subnet) : Prop :=
  prefixLength s = getRequiredPrefixLength (hosts s)
  /\ subnetSize s = blockSize (prefixLength s)
  /\ 0 <= prefixLength s <= 32.

(** How often a character occurs in a string. *)
Fixpoint occurrences (c : ascii) (s : string) : nat :=
  match s with
  | EmptyString => O
  | String d s' => (if Ascii.eqb d c then 1 else 0) + occurrences c s'
  end.

(** The address plan of a row: all of its entry but the name. *)
Definition planOf (r : Row) : string * string * string * string :=
  (network (row_details r), broadcast (row_details r),
   hostRange (row_details r), subnetMask (row_details r)).

(* ================================================================== *)
(** * Part II: theorems                                                *)
(* ================================================================== *)

(** ** The 32-bit operators *)

Section Bits32.

Lemma ToInt32_mod x : JS.ToInt32 x mod 2 ^ 32 = x mod 2 ^ 32.
Proof.
  unfold JS.ToInt32. change (2 ^ 32) with 4294967296. change (2 ^ 31) with 2147483648.
  Z.div_mod_to_equations. lia.
Qed.

Lemma ToInt32_small x : - 2 ^ 31 <= x < 2 ^ 31 -> JS.ToInt32 x = x.
Proof.
  unfold JS.ToInt32. change (2 ^ 32) with 4294967296. change (2 ^ 31) with 2147483648.
  intros H. Z.div_mod_to_equations. lia.
Qed.

Lemma ToInt32_range x : - 2 ^ 31 <= JS.ToInt32 x < 2 ^ 31.
Proof.
  unfold JS.ToInt32. change (2 ^ 32) with 4294967296. change (2 ^ 31) with 2147483648.
  Z.div_mod_to_equations. lia.
Qed.

Lemma land_mod a b n : 0 <= n -> Z.land a b mod 2 ^ n = Z.land (a mod 2 ^ n) (b mod 2 ^ n).
Proof.
  intros Hn. rewrite <- !Z.land_ones by lia.
  apply Z.bits_inj'; intros k Hk. rewrite !Z.land_spec.
  destruct (Z.testbit a k), (Z.testbit b k), (Z.testbit (Z.ones n) k); reflexivity.
Qed.

Lemma lor_mod a b n : 0 <= n -> Z.lor a b mod 2 ^ n = Z.lor (a mod 2 ^ n) (b mod 2 ^ n).
Proof.
  intros Hn. rewrite <- !Z.land_ones by lia.
  apply Z.bits_inj'; intros k Hk. rewrite !Z.land_spec, !Z.lor_spec, !Z.land_spec.
  destruct (Z.testbit a k), (Z.testbit b k), (Z.testbit (Z.ones n) k); reflexivity.
Qed.

Lemma band_mod a b : (a .& b) mod 2 ^ 32 = Z.land (a mod 2 ^ 32) (b mod 2 ^ 32).
Proof. unfold JS.band. rewrite land_mod, !ToInt32_mod by lia. reflexivity. Qed.

Lemma bor_mod a b : (a .| b) mod 2 ^ 32 = Z.lor (a mod 2 ^ 32) (b mod 2 ^ 32).
Proof. unfold JS.bor. rewrite lor_mod, !ToInt32_mod by lia. reflexivity. Qed.

Lemma bnot_mod a : (.~ a) mod 2 ^ 32 = 2 ^ 32 - 1 - a mod 2 ^ 32.
Proof.
  unfold JS.bnot, Z.lnot. rewrite <- (ToInt32_mod a).
  generalize (JS.ToInt32 a); intros y.
  change (2 ^ 32) with 4294967296. rewrite <- Z.sub_1_r.
  Z.div_mod_to_equations. lia.
Qed.

Lemma band_255 x : x .& 255 = x mod 256.
Proof.
  unfold JS.band. rewrite (ToInt32_small 255) by (vm_compute; split; congruence).
  change 255 with (Z.ones 8). rewrite Z.land_ones by lia.
  change (2 ^ 8) with 256.
  pose proof (ToInt32_mod x) as H. change (2 ^ 32) with 4294967296 in H.
  Z.div_mod_to_equations. lia.
Qed.

Lemma ushr_small x k : 0 <= k <= 31 -> x >>> k = (x mod 2 ^ 32) / 2 ^ k.
Proof.
  intros Hk. unfold JS.ushr, JS.shiftCount, JS.ToUint32.
  rewrite (Z.mod_small k) by (change (2 ^ 32) with 4294967296; lia).
  change 31 with (Z.ones 5). rewrite Z.land_ones by lia.
  rewrite (Z.mod_small k) by (change (2 ^ 5) with 32; lia).
  apply Z.shiftr_div_pow2; lia.
Qed.

Lemma shl_small a k :
  0 <= k <= 31 -> (a << k) mod 2 ^ 32 = (a * 2 ^ k) mod 2 ^ 32.
Proof.
  intros Hk. unfold JS.shl, JS.shiftCount, JS.ToUint32.
  rewrite (Z.mod_small k) by (change (2 ^ 32) with 4294967296; lia).
  change 31 with (Z.ones 5). rewrite Z.land_ones by lia.
  rewrite (Z.mod_small k) by (change (2 ^ 5) with 32; lia).
  rewrite ToInt32_mod, Z.shiftl_mul_pow2 by lia.
  rewrite <- Z.mul_mod_idemp_l, ToInt32_mod, Z.mul_mod_idemp_l by (vm_compute; congruence).
  reflexivity.
Qed.

End Bits32.

(** ** The address codec *)

Ltac pow_consts :=
  change (2 ^ 32) with 4294967296 in *; change (2 ^ 31) with 2147483648 in *;
  change (2 ^ 24) with 16777216 in *; change (2 ^ 16) with 65536 in *;
  change (2 ^ 8) with 256 in *.

(** Name the four octets of a well-formed address and their bounds. *)
Ltac octets_of H :=
  let Hl := fresh "Hlen" in
  let Hf := fresh "Hall" in
  destruct H as [Hl Hf];
  match type of Hl with
  | List.length ?ip = _ =>
      destruct ip as [|? [|? [|? [|? [|? ?]]]]]; simpl in Hl; try discriminate Hl;
      clear Hl;
      repeat match goal with
             | F : Forall _ (_ :: _) |- _ =>
                 let Ho := fresh "Ho" in
                 let Ft := fresh "Ft" in
                 apply Forall_cons_iff in F; destruct F as [Ho Ft]
             | F : Forall _ [] |- _ => clear F
             end
  end.

Section Codec.

Lemma octetsOf_valid u : validAddress (octetsOf u).
Proof.
  split; [reflexivity|].
  unfold octetsOf. repeat (apply Forall_cons || apply Forall_nil).
  all: match goal with
       | |- _ <= ?a mod 256 <= _ => pose proof (Z.mod_pos_bound a 256 ltac:(lia)); lia
       end.
Qed.

Lemma addressValue_octetsOf u : 0 <= u < 2 ^ 32 -> addressValue (octetsOf u) = u.
Proof.
  intros Hu. unfold addressValue, octetsOf, octet; simpl nth.
  pow_consts. Z.div_mod_to_equations. lia.
Qed.

Lemma octetsOf_addressValue ip : validAddress ip -> octetsOf (addressValue ip) = ip.
Proof.
  intros H. octets_of H.
  unfold addressValue, octetsOf, octet; simpl nth. pow_consts.
  f_equal; [|f_equal; [|f_equal; [|f_equal]]]; Z.div_mod_to_equations; lia.
Qed.

Lemma addressValue_range ip : validAddress ip -> 0 <= addressValue ip < 2 ^ 32.
Proof.
  intros H. octets_of H. unfold addressValue, octet; simpl nth. pow_consts. lia.
Qed.

Lemma intToIp_octets int : intToIp int = octetsOf (int mod 2 ^ 32).
Proof.
  unfold intToIp, octetsOf. rewrite !band_255, !ushr_small by lia.
  replace (int mod 256) with ((int mod 2 ^ 32) mod 256); [reflexivity|].
  pow_consts. Z.div_mod_to_equations. lia.
Qed.

Lemma intToIp_valid int : validAddress (intToIp int).
Proof. rewrite intToIp_octets. apply octetsOf_valid. Qed.

Lemma addressValue_intToIp int : addressValue (intToIp int) = int mod 2 ^ 32.
Proof.
  rewrite intToIp_octets. apply addressValue_octetsOf.
  apply Z.mod_pos_bound. reflexivity.
Qed.

Lemma intToIp_congr a b : a mod 2 ^ 32 = b mod 2 ^ 32 -> intToIp a = intToIp b.
Proof. intros H. rewrite !intToIp_octets, H. reflexivity. Qed.

Lemma ipToInt_mod ip : validAddress ip -> ipToInt ip mod 2 ^ 32 = addressValue ip.
Proof.
  intros H. octets_of H. unfold ipToInt, addressValue, octet; simpl nth.
  pose proof (shl_small z 24 ltac:(lia)) as H24.
  pose proof (shl_small z0 16 ltac:(lia)) as H16.
  pose proof (shl_small z1 8 ltac:(lia)) as H8.
  revert H24 H16 H8.
  generalize (z << 24) (z0 << 16) (z1 << 8); intros A B C HA HB HC.
  pow_consts. Z.div_mod_to_equations. lia.
Qed.

(** The round trip of the codec: [intToIp] undoes [ipToInt]. *)
Lemma intToIp_ipToInt ip : validAddress ip -> intToIp (ipToInt ip) = ip.
Proof.
  intros H. rewrite intToIp_octets, ipToInt_mod by assumption.
  apply octetsOf_addressValue; assumption.
Qed.

End Codec.

(** ** Masks, network and broadcast addresses *)

(** Case analysis on a prefix length between 0 and 31, given its bounds. *)
Ltac each_prefix p :=
  let k := fresh "k" in
  let E := fresh "E" in
  assert (E : p = Z.of_nat (Z.to_nat p)) by lia;
  revert E; generalize (Z.to_nat p); intros k E; subst p;
  do 32 (destruct k as [|k]; [vm_compute; try reflexivity|]); lia.

Section Masks.

Lemma mask_range p : 0 <= mask p < 2 ^ 32.
Proof.
  unfold mask. rewrite ushr_small by lia. change (2 ^ 0) with 1. rewrite Z.div_1_r.
  apply Z.mod_pos_bound. reflexivity.
Qed.

(** Below 32 the mask has its top [p] bits set. *)
Lemma mask_spec p : 0 <= p <= 31 -> mask p = 2 ^ 32 - 2 ^ (32 - p).
Proof. intros Hp. each_prefix p. Qed.

Lemma hostMask_spec p : 0 <= p <= 31 -> 2 ^ 32 - 1 - mask p = Z.ones (32 - p).
Proof. intros Hp. rewrite mask_spec, Z.ones_equiv by lia. lia. Qed.

Lemma calculateNetworkAddress_intToIp ip p :
  calculateNetworkAddress ip p = intToIp (ipToInt ip .& mask p).
Proof. reflexivity. Qed.

Lemma calculateBroadcastAddress_intToIp ip p :
  calculateBroadcastAddress ip p = intToIp (ipToInt ip .| .~ mask p).
Proof. reflexivity. Qed.

(** [networkAddress = address & mask], on unsigned values. *)
Lemma networkValue ip p :
  validAddress ip ->
  addressValue (calculateNetworkAddress ip p) = Z.land (addressValue ip) (mask p).
Proof.
  intros H. rewrite calculateNetworkAddress_intToIp, addressValue_intToIp, band_mod.
  rewrite ipToInt_mod by assumption.
  rewrite (Z.mod_small (mask p)) by apply mask_range. reflexivity.
Qed.

(** [broadcastAddress = address | ~mask], the complement taken in 32 bits. *)
Lemma broadcastValue ip p :
  validAddress ip ->
  addressValue (calculateBroadcastAddress ip p)
  = Z.lor (addressValue ip) (2 ^ 32 - 1 - mask p).
Proof.
  intros H. rewrite calculateBroadcastAddress_intToIp, addressValue_intToIp, bor_mod.
  rewrite ipToInt_mod by assumption.
  rewrite bnot_mod, (Z.mod_small (mask p)) by apply mask_range. reflexivity.
Qed.

Lemma clear_low u k : 0 <= k -> Z.shiftl (Z.shiftr u k) k = u - u mod 2 ^ k.
Proof.
  intros Hk. rewrite Z.shiftl_mul_pow2, Z.shiftr_div_pow2 by lia.
  assert (0 < 2 ^ k) by (apply Z.pow_pos_nonneg; lia).
  Z.div_mod_to_equations. nia.
Qed.

Lemma land_high u k :
  0 <= u < 2 ^ 32 -> 0 <= k <= 32 ->
  Z.land u (2 ^ 32 - 2 ^ k) = u - u mod 2 ^ k.
Proof.
  intros Hu Hk. rewrite <- clear_low by lia.
  replace (2 ^ 32 - 2 ^ k) with (Z.shiftl (Z.ones (32 - k)) k).
  2:{ rewrite Z.shiftl_mul_pow2, Z.ones_equiv, <- Z.sub_1_r by lia.
      rewrite Z.mul_sub_distr_r, <- Z.pow_add_r by lia.
      replace (32 - k + k) with 32 by lia. lia. }
  apply Z.bits_inj'; intros i Hi. rewrite Z.land_spec.
  destruct (Z.lt_ge_cases i k) as [Hlt|Hge].
  - rewrite !Z.shiftl_spec_low by lia. apply andb_false_r.
  - rewrite !Z.shiftl_spec, Z.shiftr_spec by lia.
    replace (i - k + k) with i by lia.
    destruct (Z.lt_ge_cases i 32) as [Hlo|Hhi].
    + rewrite Z.ones_spec_low by lia. apply andb_true_r.
    + rewrite Z.ones_spec_high by lia. rewrite andb_false_r.
      symmetry. rewrite <- (Z.mod_small u (2 ^ 32)) by lia.
      apply Z.mod_pow2_bits_high. lia.
Qed.

Lemma lor_low u k :
  0 <= k -> Z.lor u (Z.ones k) = u - u mod 2 ^ k + (2 ^ k - 1).
Proof.
  intros Hk. rewrite <- clear_low by lia.
  rewrite Z.sub_1_r, <- Z.ones_equiv.
  assert (Hdisj : Z.land (Z.shiftl (Z.shiftr u k) k) (Z.ones k) = 0).
  { apply Z.bits_inj'; intros i Hi. rewrite Z.land_spec, Z.bits_0.
    destruct (Z.lt_ge_cases i k).
    - rewrite Z.shiftl_spec_low by lia. reflexivity.
    - rewrite Z.ones_spec_high by lia. apply andb_false_r. }
  rewrite (Z.add_nocarry_lxor _ _ Hdisj), (Z.lxor_lor _ _ Hdisj).
  apply Z.bits_inj'; intros i Hi. rewrite !Z.lor_spec.
  destruct (Z.lt_ge_cases i k).
  - rewrite Z.ones_spec_low by lia. rewrite !orb_true_r. reflexivity.
  - rewrite Z.shiftl_spec, Z.shiftr_spec by lia.
    replace (i - k + k) with i by lia. reflexivity.
Qed.

(** The network address is the address with its host bits cleared. *)
Lemma network_closed ip p :
  validAddress ip -> 0 <= p <= 31 ->
  addressValue (calculateNetworkAddress ip p)
  = addressValue ip - addressValue ip mod blockSize p.
Proof.
  intros H Hp. rewrite networkValue, mask_spec by assumption.
  apply land_high; [apply addressValue_range; assumption | lia].
Qed.

(** The broadcast address is the address with its host bits set. *)
Lemma broadcast_closed ip p :
  validAddress ip -> 0 <= p <= 31 ->
  addressValue (calculateBroadcastAddress ip p)
  = addressValue ip - addressValue ip mod blockSize p + (blockSize p - 1).
Proof.
  intros H Hp. rewrite broadcastValue, hostMask_spec by assumption.
  apply lor_low; lia.
Qed.

Lemma blockSize_pos p : p <= 32 -> 1 <= blockSize p.
Proof.
  intros Hp. unfold blockSize.
  assert (0 < 2 ^ (32 - p)) by (apply Z.pow_pos_nonneg; lia). lia.
Qed.

End Masks.

(** ** The usable range *)

Section UsableRange.

Lemma usableRange_unfold ip p :
  usableRange ip p =
  let network := calculateNetworkAddress ip p in
  let broadcast := calculateBroadcastAddress ip p in
  if p >=? 31 then
    if p =? 31
    then (Some (JS.join "." network), Some (JS.join "." broadcast))
    else (None, None)
  else (Some (JS.join "." (intToIp (ipToInt network + 1))),
        Some (JS.join "." (intToIp (ipToInt broadcast - 1)))).
Proof. unfold usableRange, intToIp, ipToInt. cbv zeta. reflexivity. Qed.

Lemma intToIp_shift ip d :
  validAddress ip -> 0 <= addressValue ip + d < 2 ^ 32 ->
  intToIp (ipToInt ip + d) = octetsOf (addressValue ip + d).
Proof.
  intros H Hr. rewrite intToIp_octets. f_equal.
  rewrite <- Z.add_mod_idemp_l, ipToInt_mod by (assumption || (vm_compute; congruence)).
  apply Z.mod_small; assumption.
Qed.

Lemma calculateNetworkAddress_valid ip p : validAddress (calculateNetworkAddress ip p).
Proof. rewrite calculateNetworkAddress_intToIp. apply intToIp_valid. Qed.

Lemma calculateBroadcastAddress_valid ip p : validAddress (calculateBroadcastAddress ip p).
Proof. rewrite calculateBroadcastAddress_intToIp. apply intToIp_valid. Qed.

(** An array that [intToIp] built is determined by its value. *)
Lemma intToIp_canonical int : intToIp int = octetsOf (addressValue (intToIp int)).
Proof. rewrite addressValue_intToIp. apply intToIp_octets. Qed.

Lemma broadcastValue_lnot ip p :
  validAddress ip ->
  addressValue (calculateBroadcastAddress ip p)
  = Z.lor (addressValue ip) (Z.lnot (mask p)) mod 2 ^ 32.
Proof.
  intros H. rewrite broadcastValue by assumption.
  rewrite lor_mod by lia.
  rewrite (Z.mod_small (addressValue ip)) by (apply addressValue_range; assumption).
  f_equal. pose proof (mask_range p) as Hm. unfold Z.lnot. rewrite <- Z.sub_1_r.
  revert Hm. generalize (mask p); intros m Hm. pow_consts.
  Z.div_mod_to_equations. lia.
Qed.

(** Masking is idempotent: the network address of a network address. *)
Lemma network_of_network ip p :
  validAddress ip ->
  calculateNetworkAddress (calculateNetworkAddress ip p) p = calculateNetworkAddress ip p.
Proof.
  intros H.
  rewrite (calculateNetworkAddress_intToIp (calculateNetworkAddress ip p)).
  rewrite (calculateNetworkAddress_intToIp ip) at 2.
  rewrite intToIp_canonical, (intToIp_canonical (ipToInt ip .& mask p)).
  rewrite <- !calculateNetworkAddress_intToIp. f_equal.
  rewrite !networkValue by (assumption || apply calculateNetworkAddress_valid).
  rewrite <- Z.land_assoc, Z.land_diag. reflexivity.
Qed.

(** A block has one broadcast address, whichever of its addresses it is
    computed from. *)
Lemma broadcast_of_network ip p :
  validAddress ip ->
  calculateBroadcastAddress (calculateNetworkAddress ip p) p
  = calculateBroadcastAddress ip p.
Proof.
  intros H.
  rewrite (calculateBroadcastAddress_intToIp (calculateNetworkAddress ip p)).
  rewrite (calculateBroadcastAddress_intToIp ip).
  rewrite intToIp_canonical, (intToIp_canonical (ipToInt ip .| .~ mask p)).
  rewrite <- !calculateBroadcastAddress_intToIp. f_equal.
  rewrite !broadcastValue_lnot by (assumption || apply calculateNetworkAddress_valid).
  rewrite networkValue by assumption. f_equal.
  apply Z.bits_inj'; intros i Hi.
  rewrite !Z.lor_spec, Z.land_spec, Z.lnot_spec by assumption.
  destruct (Z.testbit (addressValue ip) i), (Z.testbit (mask p) i); reflexivity.
Qed.

End UsableRange.

Section Blocks.

Lemma blockSize_split p : 0 <= p <= 32 -> 2 ^ 32 = blockSize p * 2 ^ p.
Proof.
  intros Hp. unfold blockSize. rewrite <- Z.pow_add_r by lia.
  f_equal. lia.
Qed.

(** Clearing the host bits of a 32-bit value leaves room for a whole block. *)
Lemma aligned_room u p :
  0 <= u < 2 ^ 32 -> 0 <= p <= 32 ->
  0 <= u - u mod blockSize p /\ u - u mod blockSize p + blockSize p <= 2 ^ 32.
Proof.
  intros Hu Hp. pose proof (blockSize_pos p ltac:(lia)) as Hs.
  pose proof (blockSize_split p Hp) as Hsplit.
  assert (Hq : u / blockSize p < 2 ^ p)
    by (apply Z.div_lt_upper_bound; lia).
  assert (Hq0 : 0 <= u / blockSize p) by (apply Z.div_pos; lia).
  rewrite Z.mod_eq by lia.
  assert (Hle : blockSize p * (u / blockSize p) <= blockSize p * (2 ^ p - 1))
    by (apply Z.mul_le_mono_nonneg_l; lia).
  assert (0 <= blockSize p * (u / blockSize p)) by (apply Z.mul_nonneg_nonneg; lia).
  lia.
Qed.

(** Containment: below /32 the network address, the address and the
    broadcast address are in this order, one block apart, within 32 bits. *)
Lemma network_broadcast_bounds ip p :
  validAddress ip -> 0 <= p <= 31 ->
  let N := addressValue (calculateNetworkAddress ip p) in
  let B := addressValue (calculateBroadcastAddress ip p) in
  0 <= N /\ N <= addressValue ip /\ addressValue ip <= B /\ B < 2 ^ 32
  /\ B = N + blockSize p - 1.
Proof.
  intros H Hp N B. subst N B.
  rewrite network_closed, broadcast_closed by assumption.
  pose proof (addressValue_range ip H) as Hu.
  pose proof (aligned_room (addressValue ip) p Hu ltac:(lia)) as Hroom.
  pose proof (blockSize_pos p ltac:(lia)) as Hs.
  pose proof (Z.mod_pos_bound (addressValue ip) (blockSize p) ltac:(lia)).
  lia.
Qed.

Lemma blockSize_ge4 p : p <= 30 -> 4 <= blockSize p.
Proof.
  intros Hp. unfold blockSize. change 4 with (2 ^ 2).
  apply Z.pow_le_mono_r; lia.
Qed.

End Blocks.

(** C7.  For a well-formed address and a prefix length [p] between 0 and 32,
    [usableRange] returns: when [p < 31], the network address plus one and the
    broadcast address minus one (both proper 32-bit addresses, the first not
    above the second); when [p = 31], the network address and the broadcast
    address themselves, which are the two addresses of the block; when
    [p = 32], [null] twice. *)
Theorem usableRange_by_prefix ip p :
  validAddress ip -> 0 <= p <= 32 ->
  let N := addressValue (calculateNetworkAddress ip p) in
  let B := addressValue (calculateBroadcastAddress ip p) in
  (p < 31 ->
     usableRange ip p
     = (Some (JS.join "." (octetsOf (N + 1))), Some (JS.join "." (octetsOf (B - 1))))
     /\ addressValue (octetsOf (N + 1)) = N + 1
     /\ addressValue (octetsOf (B - 1)) = B - 1
     /\ N + 1 <= B - 1
     /\ N = addressValue ip - addressValue ip mod blockSize p
     /\ B = N + blockSize p - 1)
  /\ (p = 31 ->
     usableRange ip p
     = (Some (JS.join "." (calculateNetworkAddress ip p)),
        Some (JS.join "." (calculateBroadcastAddress ip p)))
     /\ B = N + 1)
  /\ (p = 32 -> usableRange ip p = (None, None)).
Proof.
  intros H Hp N B. split; [|split].
  - intros Hlt.
    destruct (network_broadcast_bounds ip p H ltac:(lia)) as (H0 & H1 & H2 & H3 & H4).
    pose proof (blockSize_ge4 p ltac:(lia)).
    fold N in H0, H1, H4. fold B in H2, H3, H4.
    repeat split; try (apply addressValue_octetsOf; lia); try lia;
      try (apply network_closed; assumption || lia).
    rewrite usableRange_unfold. cbv zeta.
    destruct (Z.geb_spec p 31) as [Hge|_]; [lia|].
    rewrite <- (Z.add_opp_r (ipToInt (calculateBroadcastAddress ip p)) 1).
    rewrite (intToIp_shift (calculateNetworkAddress ip p) 1)
      by (apply calculateNetworkAddress_valid || (fold N; lia)).
    rewrite (intToIp_shift (calculateBroadcastAddress ip p) (Z.opp 1))
      by (apply calculateBroadcastAddress_valid || (fold B; lia)).
    rewrite Z.add_opp_r. reflexivity.
  - intros ->. split.
    + rewrite usableRange_unfold. reflexivity.
    + destruct (network_broadcast_bounds ip 31 H ltac:(lia)) as (H0 & H1 & H2 & H3 & H4).
      fold N in H4. fold B in H4. rewrite H4.
      change (blockSize 31) with 2. lia.
  - intros ->. rewrite usableRange_unfold. reflexivity.
Qed.

Lemma usableRange_by_prefix_witness :
  validAddress [192; 168; 1; 77] /\ 0 <= 26 <= 32 /\
  usableRange [192; 168; 1; 77] 26 = (Some "192.168.1.65", Some "192.168.1.126").
Proof.
  assert (Hv : validAddress [192; 168; 1; 77])
    by (split; [reflexivity | repeat constructor; lia]).
  assert (Hp : 0 <= 26 <= 32) by lia.
  split; [exact Hv | split; [exact Hp |]].
  destruct (usableRange_by_prefix [192; 168; 1; 77] 26 Hv Hp) as [Hlow _].
  destruct (Hlow ltac:(lia)) as [E _]. rewrite E. vm_compute. reflexivity.
Defined.

(** C10.  [usableRange] gives the same result on an address and on the
    network address of its block: it masks its input again, so only the
    block matters. *)
Theorem usableRange_of_network ip p :
  validAddress ip ->
  usableRange ip p = usableRange (calculateNetworkAddress ip p) p.
Proof.
  intros H. rewrite !usableRange_unfold. cbv zeta.
  rewrite network_of_network, broadcast_of_network by assumption.
  reflexivity.
Qed.

Lemma usableRange_of_network_witness :
  validAddress [10; 20; 30; 40] /\
  usableRange [10; 20; 30; 40] 20 = usableRange (calculateNetworkAddress [10; 20; 30; 40] 20) 20.
Proof.
  assert (Hv : validAddress [10; 20; 30; 40])
    by (split; [reflexivity | repeat constructor; lia]).
  split; [exact Hv | exact (usableRange_of_network [10; 20; 30; 40] 20 Hv)].
Defined.

(** Below 32 the mask is right: bit [i] of the 32 is set exactly when it is
    one of the top [p]. *)
Lemma mask_top_bits p i :
  0 <= p <= 31 -> 0 <= i < 32 ->
  Z.testbit (mask p) i = (32 - p <=? i).
Proof.
  intros Hp Hi. rewrite mask_spec by assumption.
  replace (2 ^ 32 - 2 ^ (32 - p)) with (Z.shiftl (Z.ones p) (32 - p)).
  2:{ rewrite Z.shiftl_mul_pow2, Z.ones_equiv, <- Z.sub_1_r by lia.
      rewrite Z.mul_sub_distr_r, <- Z.pow_add_r by lia.
      replace (p + (32 - p)) with 32 by lia. lia. }
  destruct (Z.leb_spec (32 - p) i) as [Hle|Hgt].
  - rewrite Z.shiftl_spec by lia. apply Z.ones_spec_low. lia.
  - apply Z.shiftl_spec_low. lia.
Qed.

(** C6.  At prefix length 32 the shift count of [0xffffffff >>> 32] wraps to
    0, so the mask comes out as 0 and is rendered as 0.0.0.0 instead of the
    all-ones mask; the broadcast address of a /32 comes out as
    255.255.255.255 for the same reason. *)
Theorem mask_at_32 :
  mask 32 = 0
  /\ mask 32 <> 2 ^ 32 - 1
  /\ prefixLengthToSubnetMask 32 = "0.0.0.0"
  /\ calculateBroadcastAddress [10; 0; 0; 5] 32 = [255; 255; 255; 255]
  /\ calculateNetworkAddress [10; 0; 0; 5] 32 = [0; 0; 0; 0].
Proof. repeat split. vm_compute. discriminate. Qed.

(** ** The prefix sizer *)

Section Sizer.

(** What the loop returns when started at [n]: a prefix length not above
    [n], whose block is large enough unless it is 0, and above which no
    prefix length up to [n] has a large enough block. *)
Lemma sizerLoop_spec total n :
  let r := sizerLoop total n in
  (r <= n)%nat
  /\ ((0 < r)%nat -> total <= blockSize (Z.of_nat r))
  /\ (forall q, (r < q <= n)%nat -> blockSize (Z.of_nat q) < total).
Proof.
  induction n as [|n IH]; cbn [sizerLoop].
  - repeat split; intros; lia.
  - cbv zeta. unfold JS.pow2. fold (blockSize (Z.of_nat (S n))).
    destruct (Z.geb_spec (blockSize (Z.of_nat (S n))) total) as [Hge|Hlt].
    + repeat split; intros; lia.
    + destruct IH as (IH1 & IH2 & IH3). repeat split.
      * lia.
      * exact IH2.
      * intros q Hq. destruct (Nat.eq_dec q (S n)) as [->|Hne]; [lia|].
        apply IH3. lia.
Qed.

Lemma getRequiredPrefixLength_range h : 0 <= getRequiredPrefixLength h <= 32.
Proof.
  unfold getRequiredPrefixLength. cbv zeta.
  destruct (sizerLoop_spec (h + 2) 32) as (Hle & _). lia.
Qed.

Lemma blockSize_mono p q : p <= q <= 32 -> blockSize q <= blockSize p.
Proof. intros H. unfold blockSize. apply Z.pow_le_mono_r; lia. Qed.

(** A host count that is not negative never gets a /32. *)
Lemma getRequiredPrefixLength_le31 h : 0 <= h -> getRequiredPrefixLength h <= 31.
Proof.
  intros Hh. unfold getRequiredPrefixLength. cbv zeta.
  destruct (sizerLoop_spec (h + 2) 32) as (Hle & Hfit & _).
  destruct (Nat.eq_dec (sizerLoop (h + 2) 32) 32) as [E|Hne]; [|lia].
  rewrite E in Hfit. specialize (Hfit ltac:(lia)).
  change (blockSize (Z.of_nat 32)) with 1 in Hfit. lia.
Qed.

(** Too many hosts for any block: the loop runs down to 0 and the function
    returns 0, without an error. *)
Lemma getRequiredPrefixLength_overflow h :
  2 ^ 32 < h + 2 -> getRequiredPrefixLength h = 0.
Proof.
  intros Hh. unfold getRequiredPrefixLength. cbv zeta.
  destruct (sizerLoop_spec (h + 2) 32) as (Hle & Hfit & _).
  destruct (Nat.eq_dec (sizerLoop (h + 2) 32) 0) as [E|Hne]; [rewrite E; reflexivity|].
  specialize (Hfit ltac:(lia)).
  pose proof (blockSize_mono 0 (Z.of_nat (sizerLoop (h + 2) 32)) ltac:(lia)) as Hm.
  change (blockSize 0) with (2 ^ 32) in Hm. lia.
Qed.

End Sizer.

(** C4.  For a host count [h] with [h + 2 <= 2^32], the prefix length [p]
    returned is between 0 and 32, its block holds [h + 2] addresses, the
    next longer prefix (when [p < 32]) does not, and no prefix length with a
    large enough block is above [p]. *)
Theorem getRequiredPrefixLength_minimal h :
  h + 2 <= 2 ^ 32 ->
  let p := getRequiredPrefixLength h in
  0 <= p <= 32
  /\ h + 2 <= blockSize p
  /\ (p < 32 -> blockSize (p + 1) < h + 2)
  /\ (forall q, 0 <= q <= 32 -> h + 2 <= blockSize q -> q <= p).
Proof.
  intros Hh p. pose proof (getRequiredPrefixLength_range h) as Hr. fold p in Hr.
  unfold getRequiredPrefixLength in p. cbv zeta in p.
  destruct (sizerLoop_spec (h + 2) 32) as (Hle & Hfit & Habove).
  cbv zeta in Hle, Hfit, Habove.
  assert (Hq : forall q, p < q <= 32 -> blockSize q < h + 2).
  { intros q Hq. specialize (Habove (Z.to_nat q)).
    rewrite Z2Nat.id in Habove by lia. apply Habove. subst p. lia. }
  split; [exact Hr|]. split; [|split].
  - destruct (Nat.eq_dec (sizerLoop (h + 2) 32) 0) as [E|Hne].
    + subst p. rewrite E. change (blockSize (Z.of_nat 0)) with (2 ^ 32). exact Hh.
    + apply Hfit. lia.
  - intros Hlt. apply Hq. lia.
  - intros q Hq32 Hfits. destruct (Z.le_gt_cases q p) as [|Hgt]; [assumption|].
    specialize (Hq q ltac:(lia)). lia.
Qed.

Lemma getRequiredPrefixLength_minimal_witness :
  50 + 2 <= 2 ^ 32 /\ getRequiredPrefixLength 50 = 26
  /\ 50 + 2 <= blockSize (getRequiredPrefixLength 50)
  /\ blockSize (getRequiredPrefixLength 50 + 1) < 50 + 2.
Proof.
  assert (H : 50 + 2 <= 2 ^ 32) by (vm_compute; discriminate).
  destruct (getRequiredPrefixLength_minimal 50 H) as (_ & Hfit & Hnext & _).
  split; [exact H|]. split; [reflexivity|]. split; [exact Hfit|].
  apply Hnext. vm_compute. reflexivity.
Defined.

(** C5, as the code has it.  For no hosts the sizer returns prefix length 31,
    a block of 2 addresses: the smallest block that holds the 0 + 2 reserved
    addresses. *)
Theorem getRequiredPrefixLength_zero :
  getRequiredPrefixLength 0 = 31
  /\ blockSize (getRequiredPrefixLength 0) = 2
  /\ 0 + 2 <= blockSize 31 /\ blockSize 32 < 0 + 2.
Proof. repeat split; vm_compute; congruence. Qed.

(** C5 as stated fails: the sizer does not return 30 (block size 4) for no
    hosts. *)
Lemma getRequiredPrefixLength_zero_not_30 :
  ~ (getRequiredPrefixLength 0 = 30 /\ blockSize (getRequiredPrefixLength 0) = 4).
Proof. intros [H _]. vm_compute in H. discriminate H. Qed.

(** ** Sorting by size *)

Section Sorting.

Context {A : Type} (cmp : A -> A -> Z).

Lemma insert_perm x l : Permutation (JS.insert cmp x l) (x :: l).
Proof.
  induction l as [|y l IH]; cbn [JS.insert].
  - apply Permutation_refl.
  - destruct (cmp x y <=? 0).
    + apply Permutation_refl.
    + eapply perm_trans; [apply perm_skip, IH | apply perm_swap].
Qed.

Lemma sort_perm l : Permutation (JS.sort cmp l) l.
Proof.
  induction l as [|x l IH]; cbn [JS.sort].
  - apply perm_nil.
  - eapply perm_trans; [apply insert_perm | apply perm_skip, IH].
Qed.

Lemma sort_length l : List.length (JS.sort cmp l) = List.length l.
Proof. apply Permutation_length, sort_perm. Qed.

End Sorting.

Section SortingSubnets.

Lemma insert_sorted x l :
  StronglySorted largerFirst l -> StronglySorted largerFirst (JS.insert bySizeDesc x l).
Proof.
  induction 1 as [|y l Hs IH Hy]; cbn [JS.insert].
  - repeat constructor.
  - unfold bySizeDesc at 1. destruct (Z.leb_spec (subnetSize y - subnetSize x) 0) as [Hle|Hgt].
    + constructor; [constructor; assumption|].
      constructor; [unfold largerFirst; lia|].
      eapply Forall_impl; [|exact Hy]. intros z Hz. unfold largerFirst in *. lia.
    + constructor; [exact IH|].
      eapply Permutation_Forall; [apply Permutation_sym, insert_perm|].
      constructor; [unfold largerFirst; lia | exact Hy].
Qed.

Lemma sort_sorted l : StronglySorted largerFirst (JS.sort bySizeDesc l).
Proof.
  induction l as [|x l IH]; cbn [JS.sort]; [constructor | apply insert_sorted, IH].
Qed.

(** Inserting does not reorder the subnets of any one size. *)
Lemma ofSize_insert s x l :
  ofSize s (JS.insert bySizeDesc x l) = ofSize s (x :: l).
Proof.
  induction l as [|y l IH]; cbn [JS.insert]; [reflexivity|].
  unfold bySizeDesc at 1.
  destruct (Z.leb_spec (subnetSize y - subnetSize x) 0) as [Hle|Hgt]; [reflexivity|].
  unfold ofSize in *. cbn [filter] in *. rewrite IH.
  destruct (Z.eqb_spec (subnetSize x) s), (Z.eqb_spec (subnetSize y) s);
    try reflexivity; lia.
Qed.

(** The sort is stable: subnets of equal size keep their input order. *)
Lemma ofSize_sort s l : ofSize s (JS.sort bySizeDesc l) = ofSize s l.
Proof.
  induction l as [|x l IH]; cbn [JS.sort]; [reflexivity|].
  rewrite ofSize_insert. unfold ofSize in *. cbn [filter]. rewrite IH. reflexivity.
Qed.

Lemma sizeSum_perm l l' : Permutation l l' -> sizeSum l = sizeSum l'.
Proof.
  induction 1; cbn [sizeSum fold_right] in *; try fold (sizeSum l) in *;
    try fold (sizeSum l') in *; lia.
Qed.

Lemma fold_left_sizeSum l acc :
  fold_left (fun sum subnet => sum + subnetSize subnet) l acc = acc + sizeSum l.
Proof.
  revert acc; induction l as [|x l IH]; intros acc; cbn [fold_left sizeSum fold_right].
  - lia.
  - rewrite IH. fold (sizeSum l). lia.
Qed.

Lemma totalAddressesNeeded_sizeSum l : totalAddressesNeeded l = sizeSum l.
Proof. unfold totalAddressesNeeded. rewrite fold_left_sizeSum. lia. Qed.

Lemma sizeSum_requiredSubnets hs : sizeSum (requiredSubnets hs) = blockSizeSum hs.
Proof.
  unfold blockSizeSum, requiredSubnets, sizeSum.
  induction hs as [|h hs IH]; cbn [map fold_right]; [reflexivity|].
  rewrite IH. reflexivity.
Qed.

Lemma totalAddressesNeeded_sorted hs :
  totalAddressesNeeded (JS.sort bySizeDesc (requiredSubnets hs)) = blockSizeSum hs.
Proof.
  rewrite totalAddressesNeeded_sizeSum, (sizeSum_perm _ _ (sort_perm _ _)).
  apply sizeSum_requiredSubnets.
Qed.

Lemma sizeSum_app l1 l2 : sizeSum (l1 ++ l2)%list = sizeSum l1 + sizeSum l2.
Proof.
  induction l1 as [|x l1 IH]; cbn [app]; [reflexivity|].
  change (subnetSize x + sizeSum (l1 ++ l2)%list = subnetSize x + sizeSum l1 + sizeSum l2).
  lia.
Qed.

End SortingSubnets.

(** ** The allocation walk *)

Section Allocation.

Lemma allocate_unfold ip P hs :
  allocate ip P hs =
  if blockSizeSum hs >? blockSize P then Throw notEnough
  else Ok (allocateFrom (ipToInt ip) 0 (JS.sort bySizeDesc (requiredSubnets hs))).
Proof.
  unfold allocate. cbv zeta. rewrite totalAddressesNeeded_sorted.
  unfold JS.pow2, blockSize. reflexivity.
Qed.

(** The fields of the row that one call of the callback builds. *)
Lemma allocateOne_fields c s i :
  let r := allocateOne c s i in
  row_index r = i /\ row_subnet r = s
  /\ row_network r = intToIp c
  /\ row_prefixLength r = prefixLength s
  /\ row_broadcast r = calculateBroadcastAddress (intToIp c) (prefixLength s)
  /\ name (row_details r) = label (Z.of_nat i + 1) (hosts s)
  /\ network (row_details r)
     = JS.join "." (intToIp c) ++ "/" ++ JS.toString (prefixLength s)
  /\ broadcast (row_details r)
     = JS.join "." (calculateBroadcastAddress (intToIp c) (prefixLength s)).
Proof.
  unfold allocateOne. cbv zeta.
  destruct (usableRange (intToIp c) (prefixLength s)) as [firstHost lastHost].
  repeat split; reflexivity.
Qed.

Lemma allocateFrom_length c i l : List.length (allocateFrom c i l) = List.length l.
Proof.
  revert c i; induction l as [|s l IH]; intros c i; cbn [allocateFrom List.length];
    [reflexivity | rewrite IH; reflexivity].
Qed.

(** The row at position [k] is built at the start address advanced by the
    sizes of the [k] subnets before it. *)
Lemma allocateFrom_nth c i l k s :
  nth_error l k = Some s ->
  nth_error (allocateFrom c i l) k
  = Some (allocateOne (c + sizeSum (firstn k l)) s (i + k)).
Proof.
  revert c i k; induction l as [|x l IH]; intros c i k Hk.
  - destruct k; discriminate Hk.
  - destruct k as [|k]; cbn [allocateFrom nth_error firstn] in *.
    + injection Hk as ->. rewrite Nat.add_0_r.
      change (sizeSum []) with 0. rewrite Z.add_0_r. reflexivity.
    + rewrite (IH _ _ _ Hk).
      change (sizeSum (x :: firstn k l)) with (subnetSize x + sizeSum (firstn k l)).
      rewrite Z.add_assoc, Nat.add_succ_comm. reflexivity.
Qed.

Lemma allocateFrom_nth_inv c i l k r :
  nth_error (allocateFrom c i l) k = Some r ->
  exists s, nth_error l k = Some s
            /\ r = allocateOne (c + sizeSum (firstn k l)) s (i + k).
Proof.
  intros Hr. destruct (nth_error l k) as [s|] eqn:Hs.
  - exists s. split; [reflexivity|].
    rewrite (allocateFrom_nth c i l k s Hs) in Hr. injection Hr as <-. reflexivity.
  - apply nth_error_None in Hs. rewrite <- (allocateFrom_length c i) in Hs.
    apply nth_error_None in Hs. congruence.
Qed.

Lemma map_row_subnet c i l : map row_subnet (allocateFrom c i l) = l.
Proof.
  revert c i; induction l as [|s l IH]; intros c i; cbn [allocateFrom map];
    [reflexivity|].
  rewrite IH. f_equal. apply (allocateOne_fields c s i).
Qed.

Lemma sizeSum_firstn_step l k s :
  nth_error l k = Some s ->
  sizeSum (firstn (S k) l) = sizeSum (firstn k l) + subnetSize s.
Proof.
  revert k; induction l as [|x l IH]; intros k Hk.
  - destruct k; discriminate Hk.
  - destruct k as [|k].
    + injection Hk as ->. cbn [firstn]. change (subnetSize s + 0 = 0 + subnetSize s). lia.
    + cbn [nth_error] in Hk. specialize (IH k Hk).
      change (firstn (S (S k)) (x :: l)) with (x :: firstn (S k) l).
      change (firstn (S k) (x :: l)) with (x :: firstn k l).
      change (subnetSize x + sizeSum (firstn (S k) l)
              = subnetSize x + sizeSum (firstn k l) + subnetSize s).
      lia.
Qed.

Lemma sizeSum_nonneg l :
  Forall (fun s => 0 <= subnetSize s) l -> 0 <= sizeSum l.
Proof.
  induction 1 as [|x l Hx _ IH]; [reflexivity|].
  change (0 <= subnetSize x + sizeSum l). lia.
Qed.

Lemma sizeSum_firstn_mono l j k :
  Forall (fun s => 0 <= subnetSize s) l -> (j <= k)%nat ->
  sizeSum (firstn j l) <= sizeSum (firstn k l).
Proof.
  intros Hall Hjk.
  rewrite <- (firstn_skipn j (firstn k l)), sizeSum_app.
  rewrite firstn_firstn, Nat.min_l by lia.
  assert (0 <= sizeSum (skipn j (firstn k l))); [|lia].
  apply sizeSum_nonneg.
  rewrite <- (firstn_skipn k l) in Hall. apply Forall_app in Hall as [Hfirst _].
  rewrite <- (firstn_skipn j (firstn k l)) in Hfirst.
  apply Forall_app in Hfirst as [_ Hskip]. exact Hskip.
Qed.

Lemma sizeSum_firstn_le l k :
  Forall (fun s => 0 <= subnetSize s) l -> sizeSum (firstn k l) <= sizeSum l.
Proof.
  intros Hall. destruct (Nat.le_gt_cases k (List.length l)) as [Hle|Hgt].
  - rewrite <- (firstn_all l) at 2. apply sizeSum_firstn_mono; assumption.
  - rewrite firstn_all2 by lia. lia.
Qed.

Lemma requiredSubnets_sized hs : Forall sized (requiredSubnets hs).
Proof.
  unfold requiredSubnets. apply Forall_forall. intros s Hs.
  apply in_map_iff in Hs. destruct Hs as (h & <- & _).
  unfold sized; cbn. repeat split; apply getRequiredPrefixLength_range.
Qed.

End Allocation.

Section Ranges.

(** The range that a row reports starts at the cursor (modulo 2^32) and
    ends before the cursor has advanced by the block size. *)
Lemma row_range c s i :
  0 <= prefixLength s <= 31 -> subnetSize s = blockSize (prefixLength s) ->
  let r := allocateOne c s i in
  rangeLow r = c mod 2 ^ 32
  /\ rangeLow r <= rangeHigh r
  /\ rangeHigh r <= rangeLow r + subnetSize s - 1.
Proof.
  intros Hp Hs r. unfold rangeLow, rangeHigh.
  destruct (allocateOne_fields c s i) as (_ & _ & Hn & _ & Hb & _).
  fold r in Hn, Hb. rewrite Hn, Hb, Hs.
  destruct (network_broadcast_bounds (intToIp c) (prefixLength s)
              (intToIp_valid c) Hp) as (H0 & H1 & H2 & H3 & H4).
  split; [apply addressValue_intToIp|]. lia.
Qed.

(** Two rows of one walk, the first before the second. *)
Lemma rows_disjoint_lt c l i j si sj i' j' :
  Forall sized l -> Forall (fun s => prefixLength s <= 31) l ->
  sizeSum l <= 2 ^ 32 ->
  (i < j)%nat -> nth_error l i = Some si -> nth_error l j = Some sj ->
  let ri := allocateOne (c + sizeSum (firstn i l)) si i' in
  let rj := allocateOne (c + sizeSum (firstn j l)) sj j' in
  rangeLow ri <= rangeHigh ri /\ rangeLow rj <= rangeHigh rj
  /\ (rangeHigh ri < rangeLow rj \/ rangeHigh rj < rangeLow ri).
Proof.
  intros Hsized H31 Htotal Hij Hi Hj ri rj.
  assert (Hpos : Forall (fun s => 0 <= subnetSize s) l).
  { eapply Forall_impl; [|exact Hsized]. intros s (_ & Hs & Hp).
    pose proof (blockSize_pos (prefixLength s) ltac:(lia)). lia. }
  assert (Hin : forall k s, nth_error l k = Some s ->
                  0 <= prefixLength s <= 31
                  /\ subnetSize s = blockSize (prefixLength s)
                  /\ 1 <= subnetSize s).
  { intros k s Hk. apply nth_error_In in Hk.
    pose proof (proj1 (Forall_forall _ _) Hsized s Hk) as (_ & Hs & Hp).
    pose proof (proj1 (Forall_forall _ _) H31 s Hk) as Hle. cbv beta in Hle.
    pose proof (blockSize_pos (prefixLength s) ltac:(lia)). lia. }
  destruct (Hin i si Hi) as (Hpi & Hsi & Hi1).
  destruct (Hin j sj Hj) as (Hpj & Hsj & Hj1).
  destruct (row_range (c + sizeSum (firstn i l)) si i' Hpi Hsi) as (Li & Lei & Ui).
  destruct (row_range (c + sizeSum (firstn j l)) sj j' Hpj Hsj) as (Lj & Lej & Uj).
  fold ri in Li, Lei, Ui. fold rj in Lj, Lej, Uj.
  pose proof (sizeSum_firstn_step l i si Hi) as Hstep_i.
  pose proof (sizeSum_firstn_step l j sj Hj) as Hstep_j.
  pose proof (sizeSum_firstn_mono l (S i) j Hpos ltac:(lia)) as Hmono.
  pose proof (sizeSum_firstn_le l (S j) Hpos) as Hend.
  pose proof (sizeSum_firstn_mono l 0 i Hpos ltac:(lia)) as Hstart.
  change (sizeSum (firstn 0 l)) with 0 in Hstart.
  split; [exact Lei|]. split; [exact Lej|].
  revert Li Lj Ui Uj Hstep_i Hstep_j Hmono Hend Htotal Hi1 Hj1 Hstart.
  generalize (rangeLow ri) (rangeHigh ri) (rangeLow rj) (rangeHigh rj)
             (sizeSum (firstn i l)) (sizeSum (firstn j l))
             (sizeSum (firstn (S i) l)) (sizeSum (firstn (S j) l))
             (sizeSum l) (subnetSize si) (subnetSize sj).
  intros lo_i hi_i lo_j hi_j a b a' b' t s_i s_j.
  change (2 ^ 32) with 4294967296. intros.
  Z.div_mod_to_equations. lia.
Qed.

End Ranges.

(** C3.  The ranges of a successful result can intersect.  The host
    requirements text [-1,-1] passes the check of lines 129-132, which
    rejects only [NaN]; both requirements are sized /32; at prefix length 32
    the mask is 0 (the shift slip of C6), so on the base network 10.0.0.0/24
    the calculation succeeds and both rows report the broadcast address
    255.255.255.255.  The two ranges from network address to broadcast
    address, 10.0.0.0 - 255.255.255.255 and 10.0.0.1 - 255.255.255.255, share
    every address from 10.0.0.1 on. *)
Theorem negative_hosts_ranges_intersect :
  parseCIDR "10.0.0.0/24"
  = Ok {| cidr_ip := map (fun o => Finite (inject_Z o)) [10; 0; 0; 0];
          cidr_prefixLength := Finite (inject_Z 24) |}
  /\ parseHostRequirements "-1,-1"
     = Ok (map (fun h => Finite (inject_Z h)) [-1; -1])
  /\ exists r1 r2,
       allocate [10; 0; 0; 0] 24 [-1; -1] = Ok [r1; r2]
       /\ resultsHidden (calculateVLSM [10; 0; 0; 0] 24 [-1; -1]) = false
       /\ subnetList (calculateVLSM [10; 0; 0; 0] 24 [-1; -1])
          = [row_details r1; row_details r2]
       /\ row_prefixLength r1 = 32 /\ row_prefixLength r2 = 32
       /\ network (row_details r1) = "10.0.0.0/32"
       /\ broadcast (row_details r1) = "255.255.255.255"
       /\ network (row_details r2) = "10.0.0.1/32"
       /\ broadcast (row_details r2) = "255.255.255.255"
       /\ rangeLow r1 <= rangeLow r2 <= rangeHigh r1
       /\ rangeLow r2 <= rangeHigh r2
       /\ ~ (rangeHigh r1 < rangeLow r2 \/ rangeHigh r2 < rangeLow r1).
Proof.
  split; [vm_compute; reflexivity|].
  split; [vm_compute; reflexivity|].
  assert (Ha : allocate [10; 0; 0; 0] 24 [-1; -1]
               = Ok (allocateFrom (ipToInt [10; 0; 0; 0]) 0
                       (JS.sort bySizeDesc (requiredSubnets [-1; -1]))))
    by (rewrite allocate_unfold; reflexivity).
  eexists. eexists.
  split; [rewrite Ha; reflexivity|].
  split; [unfold calculateVLSM; rewrite Ha; reflexivity|].
  split; [unfold calculateVLSM; rewrite Ha; reflexivity|].
  do 6 (split; [vm_compute; reflexivity|]).
  split; [vm_compute; split; discriminate|].
  split; [vm_compute; discriminate|].
  vm_compute. intros [H|H]; discriminate H.
Qed.

(** Host counts that are not negative never meet that slip.  For a
    well-formed base address, a base prefix length between 0 and 32 and host
    counts that are not negative: whenever the allocation succeeds, the
    ranges from network address to broadcast address that any two distinct
    rows report are proper ranges and do not intersect.  The base address
    need not be aligned to its prefix. *)
Theorem allocated_ranges_disjoint ip P hs rows i j ri rj :
  validAddress ip -> 0 <= P <= 32 -> Forall (fun h => 0 <= h) hs ->
  allocate ip P hs = Ok rows ->
  nth_error rows i = Some ri -> nth_error rows j = Some rj -> i <> j ->
  rangeLow ri <= rangeHigh ri /\ rangeLow rj <= rangeHigh rj
  /\ (rangeHigh ri < rangeLow rj \/ rangeHigh rj < rangeLow ri).
Proof.
  intros Hip HP Hhs Halloc Hi Hj Hne.
  rewrite allocate_unfold in Halloc.
  destruct (Z.gtb_spec (blockSizeSum hs) (blockSize P)) as [Hgt|Hle]; [discriminate|].
  injection Halloc as <-.
  set (l := JS.sort bySizeDesc (requiredSubnets hs)) in *.
  assert (Hperm : Permutation (requiredSubnets hs) l)
    by (apply Permutation_sym, sort_perm).
  assert (Hsized : Forall sized l)
    by (eapply Permutation_Forall; [exact Hperm | apply requiredSubnets_sized]).
  assert (H31 : Forall (fun s => prefixLength s <= 31) l).
  { eapply Permutation_Forall; [exact Hperm|].
    unfold requiredSubnets. apply Forall_forall. intros s Hs.
    apply in_map_iff in Hs. destruct Hs as (h & <- & Hh). cbn.
    apply getRequiredPrefixLength_le31.
    exact (proj1 (Forall_forall _ _) Hhs h Hh). }
  assert (Htotal : sizeSum l <= 2 ^ 32).
  { rewrite <- (sizeSum_perm _ _ Hperm), sizeSum_requiredSubnets.
    pose proof (blockSize_mono 0 P ltac:(lia)) as Hm.
    change (blockSize 0) with (2 ^ 32) in Hm. lia. }
  apply allocateFrom_nth_inv in Hi. destruct Hi as (si & Hsi & ->).
  apply allocateFrom_nth_inv in Hj. destruct Hj as (sj & Hsj & ->).
  destruct (Nat.lt_total i j) as [Hlt|[Heq|Hgt]]; [|contradiction|].
  - apply (rows_disjoint_lt (ipToInt ip) l i j si sj); assumption.
  - destruct (rows_disjoint_lt (ipToInt ip) l j i sj si (0 + j) (0 + i)
                Hsized H31 Htotal Hgt Hsj Hsi) as (A & B & C).
    split; [exact B|]. split; [exact A|]. tauto.
Qed.

Lemma allocated_ranges_disjoint_witness :
  exists rows ri rj,
    validAddress [192; 168; 1; 7] /\ 0 <= 24 <= 32
    /\ Forall (fun h => 0 <= h) [10; 50; 20]
    /\ allocate [192; 168; 1; 7] 24 [10; 50; 20] = Ok rows
    /\ nth_error rows 0 = Some ri /\ nth_error rows 2 = Some rj
    /\ rangeLow ri <= rangeHigh ri /\ rangeLow rj <= rangeHigh rj
    /\ (rangeHigh ri < rangeLow rj \/ rangeHigh rj < rangeLow ri).
Proof.
  assert (Hv : validAddress [192; 168; 1; 7])
    by (split; [reflexivity | repeat constructor; lia]).
  assert (HP : 0 <= 24 <= 32) by lia.
  assert (Hh : Forall (fun h => 0 <= h) [10; 50; 20]) by (repeat constructor; lia).
  eexists. eexists. eexists.
  split; [exact Hv|]. split; [exact HP|]. split; [exact Hh|].
  assert (Ha : allocate [192; 168; 1; 7] 24 [10; 50; 20]
               = Ok (allocateFrom (ipToInt [192; 168; 1; 7]) 0
                       (JS.sort bySizeDesc (requiredSubnets [10; 50; 20]))))
    by (rewrite allocate_unfold; reflexivity).
  split; [exact Ha|].
  assert (Hi : nth_error (allocateFrom (ipToInt [192; 168; 1; 7]) 0
                            (JS.sort bySizeDesc (requiredSubnets [10; 50; 20]))) 0
               = Some (allocateOne (ipToInt [192; 168; 1; 7]) (mkSubnet 50 26 64) 0))
    by reflexivity.
  assert (Hj : nth_error (allocateFrom (ipToInt [192; 168; 1; 7]) 0
                            (JS.sort bySizeDesc (requiredSubnets [10; 50; 20]))) 2
               = Some (allocateOne (ipToInt [192; 168; 1; 7] + 64 + 32)
                         (mkSubnet 10 28 16) 2))
    by reflexivity.
  split; [exact Hi|]. split; [exact Hj|].
  apply (allocated_ranges_disjoint [192; 168; 1; 7] 24 [10; 50; 20] _ 0%nat 2%nat _ _
           Hv HP Hh Ha Hi Hj).
  discriminate.
Defined.

(** ** The plan and the capacity check *)

(** C2.  For a base prefix length [P] between 0 and 32, the allocation throws
    the not-enough-addresses error exactly when the block sizes that the host
    counts require sum to more than [2^(32 - P)]; it throws no other error;
    when it throws, the page lists no subnet and the results stay hidden;
    otherwise it returns one row per host count. *)
Theorem allocate_fails_iff ip P hs :
  0 <= P <= 32 ->
  (allocate ip P hs = Throw notEnough <-> blockSize P < blockSizeSum hs)
  /\ (forall message, allocate ip P hs = Throw message ->
        message = notEnough
        /\ subnetList (calculateVLSM ip P hs) = []
        /\ resultsHidden (calculateVLSM ip P hs) = true
        /\ errorText (calculateVLSM ip P hs) = errorMark ++ notEnough)
  /\ (blockSizeSum hs <= blockSize P ->
        exists rows, allocate ip P hs = Ok rows
                     /\ List.length rows = List.length hs
                     /\ subnetList (calculateVLSM ip P hs) = map row_details rows).
Proof.
  intros HP. unfold calculateVLSM. cbv zeta. rewrite allocate_unfold.
  destruct (Z.gtb_spec (blockSizeSum hs) (blockSize P)) as [Hgt|Hle].
  - split; [split; [intros _; lia | reflexivity]|]. split.
    + intros message E. injection E as <-. repeat split; reflexivity.
    + intros Hle. lia.
  - split; [split; [discriminate | lia]|]. split.
    + intros message E. discriminate E.
    + intros _. eexists. split; [reflexivity|]. split; [|reflexivity].
      rewrite allocateFrom_length, sort_length. apply length_map.
Qed.

Lemma allocate_fails_iff_witness :
  0 <= 30 <= 32
  /\ blockSize 30 < blockSizeSum [10]
  /\ allocate [10; 0; 0; 0] 30 [10] = Throw notEnough
  /\ subnetList (calculateVLSM [10; 0; 0; 0] 30 [10]) = [].
Proof.
  assert (HP : 0 <= 30 <= 32) by lia.
  assert (Hsum : blockSize 30 < blockSizeSum [10]) by reflexivity.
  destruct (allocate_fails_iff [10; 0; 0; 0] 30 [10] HP) as ([_ Hthrow] & Hpage & _).
  pose proof (Hthrow Hsum) as E.
  destruct (Hpage _ E) as (_ & Hlist & _).
  repeat split; assumption || (vm_compute; congruence).
Defined.

(** C1, as the code has it.  When the allocation succeeds, the rows come in
    allocation order: their subnets are the required subnets sorted by size,
    larger first, subnets of equal size in input order; the row at position
    [k] (from 0) is labelled with [k + 1], its position in that order, and
    with the host count of its own subnet. *)
Theorem allocate_emits_allocation_order ip P hs rows :
  allocate ip P hs = Ok rows ->
  let order := map row_subnet rows in
  Permutation order (requiredSubnets hs)
  /\ StronglySorted largerFirst order
  /\ (forall s, ofSize s order = ofSize s (requiredSubnets hs))
  /\ (forall k r, nth_error rows k = Some r ->
        row_index r = k
        /\ nth_error order k = Some (row_subnet r)
        /\ name (row_details r) = label (Z.of_nat k + 1) (hosts (row_subnet r))).
Proof.
  intros Halloc order. rewrite allocate_unfold in Halloc.
  destruct (blockSizeSum hs >? blockSize P); [discriminate|].
  injection Halloc as <-. subst order. rewrite map_row_subnet.
  split; [apply sort_perm|]. split; [apply sort_sorted|].
  split; [intros s; apply ofSize_sort|].
  intros k r Hr. apply allocateFrom_nth_inv in Hr. destruct Hr as (s & Hs & ->).
  destruct (allocateOne_fields
              (ipToInt ip
               + sizeSum (firstn k (JS.sort bySizeDesc (requiredSubnets hs)))) s (0 + k))
    as (Hi & Hsub & _ & _ & _ & Hname & _).
  rewrite Hi, Hsub, Hname. repeat split. exact Hs.
Qed.

Lemma allocate_emits_allocation_order_witness :
  exists rows,
    allocate [192; 168; 1; 0] 24 [10; 50; 20] = Ok rows
    /\ map (fun r => hosts (row_subnet r)) rows = [50; 20; 10]
    /\ StronglySorted largerFirst (map row_subnet rows).
Proof.
  eexists. split; [rewrite allocate_unfold; reflexivity|]. split; [reflexivity|].
  refine (proj1 (proj2 (allocate_emits_allocation_order
                          [192; 168; 1; 0] 24 [10; 50; 20] _ _))).
  rewrite allocate_unfold. reflexivity.
Defined.

(** C1 as stated fails: for the requirements 10 and 50 the first entry is the
    one for 50 hosts, labelled "Subnet 1", so the entries are not in input
    order and the label does not carry the original index. *)
Lemma allocate_not_input_order :
  exists rows,
    allocate [192; 168; 1; 0] 24 [10; 50] = Ok rows
    /\ map (fun r => hosts (row_subnet r)) rows = [50; 10]
    /\ map (fun r => name (row_details r)) rows
       = ["Subnet 1 (50 hosts)"; "Subnet 2 (10 hosts)"]
    /\ map (fun r => network (row_details r)) rows
       = ["192.168.1.0/26"; "192.168.1.64/28"]
    /\ map (fun r => hosts (row_subnet r)) rows <> [10; 50].
Proof.
  eexists. split; [rewrite allocate_unfold; reflexivity|].
  repeat split; try (vm_compute; reflexivity). discriminate.
Qed.

Section Oversized.

Lemma blockSizeSum_app l1 l2 :
  blockSizeSum (l1 ++ l2)%list = blockSizeSum l1 + blockSizeSum l2.
Proof.
  unfold blockSizeSum. induction l1 as [|h l1 IH]; cbn [app map fold_right]; lia.
Qed.

Lemma blockSizeSum_cons h l :
  blockSizeSum (h :: l) = blockSize (getRequiredPrefixLength h) + blockSizeSum l.
Proof. reflexivity. Qed.

(** Every requirement takes at least one address. *)
Lemma blockSizeSum_length l : Z.of_nat (List.length l) <= blockSizeSum l.
Proof.
  induction l as [|h l IH]; [reflexivity|].
  rewrite blockSizeSum_cons. cbn [List.length].
  pose proof (getRequiredPrefixLength_range h) as Hr.
  pose proof (blockSize_pos (getRequiredPrefixLength h) ltac:(lia)). lia.
Qed.

Lemma allocate_throws ip P hs :
  blockSize P < blockSizeSum hs ->
  allocate ip P hs = Throw notEnough
  /\ subnetList (calculateVLSM ip P hs) = []
  /\ resultsHidden (calculateVLSM ip P hs) = true.
Proof.
  intros Hlt. unfold calculateVLSM. cbv zeta. rewrite allocate_unfold.
  destruct (Z.gtb_spec (blockSizeSum hs) (blockSize P)) as [_|Hle]; [|lia].
  repeat split; reflexivity.
Qed.

End Oversized.

(** C9, as the code has it.  For a host count [h] with [h + 2 > 2^32] the
    sizer raises no error: it returns prefix length 0.  An allocation that
    contains such a requirement is aborted by the capacity check, with no
    plan on the page, whenever the base prefix length is above 0 or the list
    has another requirement. *)
Theorem oversized_requirement h :
  2 ^ 32 < h + 2 ->
  getRequiredPrefixLength h = 0
  /\ forall ip P before after,
       0 <= P <= 32 -> 0 < P \/ (before ++ after)%list <> [] ->
       allocate ip P (before ++ h :: after) = Throw notEnough
       /\ subnetList (calculateVLSM ip P (before ++ h :: after)) = []
       /\ resultsHidden (calculateVLSM ip P (before ++ h :: after)) = true.
Proof.
  intros Hh. pose proof (getRequiredPrefixLength_overflow h Hh) as E.
  split; [exact E|]. intros ip P before after HP Hother.
  apply allocate_throws.
  rewrite blockSizeSum_app, blockSizeSum_cons, E.
  change (blockSize 0) with (2 ^ 32).
  pose proof (blockSizeSum_length before) as Hb.
  pose proof (blockSizeSum_length after) as Ha.
  destruct Hother as [HP0|Hne].
  - pose proof (blockSize_mono 1 P ltac:(lia)) as Hm.
    change (blockSize 1) with (2 ^ 31) in Hm.
    change (2 ^ 31) with 2147483648 in Hm. change (2 ^ 32) with 4294967296. lia.
  - pose proof (blockSize_mono 0 P ltac:(lia)) as Hm.
    change (blockSize 0) with (2 ^ 32) in Hm.
    assert (0 < List.length before + List.length after)%nat.
    { destruct before, after; cbn in *; try lia. contradiction Hne; reflexivity. }
    lia.
Qed.

Lemma oversized_requirement_witness :
  2 ^ 32 < 4294967295 + 2
  /\ getRequiredPrefixLength 4294967295 = 0
  /\ allocate [10; 0; 0; 0] 8 ([] ++ 4294967295 :: []) = Throw notEnough.
Proof.
  assert (H : 2 ^ 32 < 4294967295 + 2) by reflexivity.
  destruct (oversized_requirement 4294967295 H) as [E Habort].
  split; [exact H|]. split; [exact E|].
  apply (Habort [10; 0; 0; 0] 8 [] []); lia.
Defined.

(** C9 as stated fails: 4294967295 hosts fit no block, yet the sizer returns
    prefix length 0 without an error, and on the base network 0.0.0.0/0 the
    allocation succeeds with a /0 subnet for them. *)
Lemma oversized_not_reported :
  2 ^ 32 < 4294967295 + 2
  /\ (forall p, 0 <= p <= 32 -> blockSize p < 4294967295 + 2)
  /\ getRequiredPrefixLength 4294967295 = 0
  /\ exists row,
       allocate [0; 0; 0; 0] 0 [4294967295] = Ok [row]
       /\ network (row_details row) = "0.0.0.0/0"
       /\ name (row_details row) = "Subnet 1 (4294967295 hosts)"
       /\ subnetList (calculateVLSM [0; 0; 0; 0] 0 [4294967295]) = [row_details row].
Proof.
  split; [reflexivity|]. split.
  { intros p Hp. pose proof (blockSize_mono 0 p ltac:(lia)) as Hm.
    change (blockSize 0) with 4294967296 in Hm. lia. }
  split; [reflexivity|].
  eexists. split; [rewrite allocate_unfold; reflexivity|].
  repeat split; vm_compute; reflexivity.
Qed.

(** ** The CIDR parser *)

Section Parser.

Local Open Scope Q_scope.

(** The validation stages in their order: each error is thrown exactly
    when the earlier checks pass and its own check fails. *)
Lemma parseCIDR_stages subnet :
  let parts := JSString.split "/" subnet in
  let ip := nth_error parts 0 in
  let prefix := nth_error parts 1 in
  let prefixLength := JSNumber.parseInt (elementOr prefix) in
  let octets := map JSNumber.Number (JSString.split "." (elementOr ip)) in
  let malformed := falsy ip || falsy prefix in
  let badPrefix :=
    JSNumber.isNaN prefixLength || JSNumber.lt prefixLength 0
    || JSNumber.gt prefixLength 32 in
  let badAddress :=
    negb (Nat.eqb (List.length octets) 4)
    || existsb (fun o => JSNumber.isNaN o || JSNumber.lt o 0 || JSNumber.gt o 255)
               octets in
  (parseCIDR subnet = Throw "Invalid CIDR format" <-> malformed = true)
  /\ (parseCIDR subnet = Throw "Invalid prefix length"
      <-> malformed = false /\ badPrefix = true)
  /\ (parseCIDR subnet = Throw "Invalid IP address"
      <-> malformed = false /\ badPrefix = false /\ badAddress = true)
  /\ (parseCIDR subnet = Ok {| cidr_ip := octets; cidr_prefixLength := prefixLength |}
      <-> malformed = false /\ badPrefix = false /\ badAddress = false).
Proof.
  intros parts ip prefix prefixLength octets malformed badPrefix badAddress.
  unfold parseCIDR. cbv zeta.
  fold parts. fold ip. fold prefix. fold malformed. fold prefixLength.
  fold badPrefix. fold octets. fold badAddress.
  destruct malformed, badPrefix, badAddress;
    repeat split; intros; try discriminate; try reflexivity;
    repeat match goal with H : _ /\ _ |- _ => destruct H end; discriminate.
Qed.

(** A well-formed input, and one input for each failure. *)
Example parseCIDR_ok :
  parseCIDR "192.168.1.0/24"
  = Ok {| cidr_ip := [Finite 192; Finite 168; Finite 1; Finite 0];
          cidr_prefixLength := Finite 24 |}.
Proof. vm_compute. reflexivity. Qed.

Example parseCIDR_no_prefix : parseCIDR "10.0.0.0" = Throw "Invalid CIDR format".
Proof. vm_compute. reflexivity. Qed.

Example parseCIDR_prefix_33 : parseCIDR "10.0.0.0/33" = Throw "Invalid prefix length".
Proof. vm_compute. reflexivity. Qed.

Example parseCIDR_three_octets : parseCIDR "10.0.0/24" = Throw "Invalid IP address".
Proof. vm_compute. reflexivity. Qed.

Example parseCIDR_octet_256 : parseCIDR "10.0.0.256/24" = Throw "Invalid IP address".
Proof. vm_compute. reflexivity. Qed.

End Parser.

(** C8.  The address check takes whatever [Number] turns into a number
    between 0 and 255 and the prefix check whatever [parseInt] can start
    reading: an address part with the component [1e-1] (the number 0.1), with
    four empty components, or with a hexadecimal component is accepted, and so
    is a prefix part with text after its digits. *)
Theorem parseCIDR_accepts_non_addresses :
  parseCIDR "1e-1.2.3.4/24"
  = Ok {| cidr_ip := [Finite (3602879701896397 # 36028797018963968)%Q;
                      Finite 2%Q; Finite 3%Q; Finite 4%Q];
          cidr_prefixLength := Finite 24%Q |}
  /\ parseCIDR ".../8"
     = Ok {| cidr_ip := [Finite 0%Q; Finite 0%Q; Finite 0%Q; Finite 0%Q];
             cidr_prefixLength := Finite 8%Q |}
  /\ parseCIDR "0x10.0.0.0/8"
     = Ok {| cidr_ip := [Finite 16%Q; Finite 0%Q; Finite 0%Q; Finite 0%Q];
             cidr_prefixLength := Finite 8%Q |}
  /\ parseCIDR "10.0.0.0/24abc"
     = Ok {| cidr_ip := [Finite 10%Q; Finite 0%Q; Finite 0%Q; Finite 0%Q];
             cidr_prefixLength := Finite 24%Q |}.
Proof. repeat split; vm_compute; reflexivity. Qed.

(** ** Worked examples *)

(** The base network 192.168.1.0/24 with the requirements 50, 20 and 10. *)
Example plan_192_168_1_0 :
  exists rows,
    allocate [192; 168; 1; 0] 24 [50; 20; 10] = Ok rows
    /\ map row_details rows
       = [ {| name := "Subnet 1 (50 hosts)"; network := "192.168.1.0/26";
              broadcast := "192.168.1.63";
              hostRange := "192.168.1.1 - 192.168.1.62";
              subnetMask := "255.255.255.192" |};
           {| name := "Subnet 2 (20 hosts)"; network := "192.168.1.64/27";
              broadcast := "192.168.1.95";
              hostRange := "192.168.1.65 - 192.168.1.94";
              subnetMask := "255.255.255.224" |};
           {| name := "Subnet 3 (10 hosts)"; network := "192.168.1.96/28";
              broadcast := "192.168.1.111";
              hostRange := "192.168.1.97 - 192.168.1.110";
              subnetMask := "255.255.255.240" |} ].
Proof.
  eexists. split; [rewrite allocate_unfold; reflexivity|]. vm_compute. reflexivity.
Qed.

Example usableRange_31 :
  usableRange [10; 0; 0; 0] 31 = (Some "10.0.0.0", Some "10.0.0.1").
Proof. vm_compute. reflexivity. Qed.

Example usableRange_32 : usableRange [10; 0; 0; 0] 32 = (None, None).
Proof. vm_compute. reflexivity. Qed.

(* ================================================================== *)
(** * Part III: further properties of the code                         *)
(* ================================================================== *)

(** ** The codec *)

Section CodecMore.

Lemma shl_exact a k :
  0 <= a <= 255 -> 0 <= k <= 24 ->
  a << k = JS.ToInt32 (a * 2 ^ k).
Proof.
  intros Ha Hk. unfold JS.shl, JS.shiftCount, JS.ToUint32.
  rewrite (Z.mod_small k) by (change (2 ^ 32) with 4294967296; lia).
  change 31 with (Z.ones 5). rewrite Z.land_ones by lia.
  rewrite (Z.mod_small k) by (change (2 ^ 5) with 32; lia).
  rewrite (ToInt32_small a) by (pow_consts; lia).
  rewrite Z.shiftl_mul_pow2 by lia. reflexivity.
Qed.

Lemma ipToInt_closed ip :
  validAddress ip ->
  ipToInt ip = if ip.[0] <? 128 then addressValue ip else addressValue ip - 2 ^ 32.
Proof.
  intros H. octets_of H. unfold ipToInt, addressValue, octet; simpl nth.
  rewrite (shl_exact z 24), (shl_exact z0 16), (shl_exact z1 8) by lia.
  rewrite (ToInt32_small (z0 * 2 ^ 16)), (ToInt32_small (z1 * 2 ^ 8)) by (pow_consts; lia).
  unfold JS.ToInt32. pow_consts.
  destruct (Z.ltb_spec z 128); Z.div_mod_to_equations; lia.
Qed.

End CodecMore.

(** X1.  [intToIp] undoes [ipToInt] on every well-formed address, and the
    integer in between is the unsigned value of the address modulo 2^32. *)
Theorem intToIp_ipToInt_round_trip ip :
  validAddress ip ->
  intToIp (ipToInt ip) = ip /\ ipToInt ip mod 2 ^ 32 = addressValue ip.
Proof.
  intros H. split; [apply intToIp_ipToInt | apply ipToInt_mod]; assumption.
Qed.

Lemma intToIp_ipToInt_round_trip_witness :
  validAddress [203; 0; 113; 9]
  /\ intToIp (ipToInt [203; 0; 113; 9]) = [203; 0; 113; 9]
  /\ ipToInt [203; 0; 113; 9] mod 2 ^ 32 = addressValue [203; 0; 113; 9].
Proof.
  assert (Hv : validAddress [203; 0; 113; 9])
    by (split; [reflexivity | repeat constructor; lia]).
  split; [exact Hv | exact (intToIp_ipToInt_round_trip [203; 0; 113; 9] Hv)].
Defined.

(** X2.  [ipToInt] returns a signed 32-bit integer: the unsigned value of the
    address when the first octet is below 128, and that value minus 2^32
    (a negative number) from 128.0.0.0 on. *)
Theorem ipToInt_signed ip :
  validAddress ip ->
  ipToInt ip = (if ip.[0] <? 128 then addressValue ip else addressValue ip - 2 ^ 32)
  /\ - 2 ^ 31 <= ipToInt ip < 2 ^ 31
  /\ (ipToInt ip < 0 <-> 128 <= ip.[0]).
Proof.
  intros H. pose proof (ipToInt_closed ip H) as E.
  pose proof (addressValue_range ip H) as Hr.
  assert (Hhi : ip.[0] * 2 ^ 24 <= addressValue ip < (ip.[0] + 1) * 2 ^ 24).
  { clear E Hr. octets_of H. unfold addressValue, octet; simpl nth. pow_consts. lia. }
  split; [exact E|]. rewrite E. pow_consts.
  destruct (Z.ltb_spec (ip.[0]) 128); lia.
Qed.

Lemma ipToInt_signed_witness :
  validAddress [192; 168; 1; 0] /\ ipToInt [192; 168; 1; 0] = 3232235776 - 2 ^ 32.
Proof.
  assert (Hv : validAddress [192; 168; 1; 0])
    by (split; [reflexivity | repeat constructor; lia]).
  split; [exact Hv|].
  destruct (ipToInt_signed [192; 168; 1; 0] Hv) as [E _]. rewrite E. reflexivity.
Defined.

(** X3.  Whatever number it is given, [intToIp] returns a well-formed
    address, and converting that back gives the number reduced to a signed
    32-bit integer: the pair works modulo 2^32. *)
Theorem ipToInt_intToIp int :
  validAddress (intToIp int)
  /\ ipToInt (intToIp int) = JS.ToInt32 int
  /\ addressValue (intToIp int) = int mod 2 ^ 32.
Proof.
  pose proof (intToIp_valid int) as Hv.
  split; [exact Hv|]. split; [|apply addressValue_intToIp].
  pose proof (ipToInt_mod _ Hv) as Hm. rewrite addressValue_intToIp in Hm.
  pose proof (ipToInt_closed _ Hv) as E.
  pose proof (addressValue_range _ Hv) as Hr.
  assert (Hhi : (intToIp int).[0] * 2 ^ 24 <= addressValue (intToIp int)
                < ((intToIp int).[0] + 1) * 2 ^ 24).
  { clear E Hr Hm. generalize Hv. generalize (intToIp int). intros ip H.
    octets_of H. unfold addressValue, octet; simpl nth. pow_consts. lia. }
  assert (Hs : - 2 ^ 31 <= ipToInt (intToIp int) < 2 ^ 31).
  { rewrite E. pow_consts. destruct (Z.ltb_spec ((intToIp int).[0]) 128); lia. }
  revert Hm Hs. generalize (ipToInt (intToIp int)). intros v Hm Hs.
  unfold JS.ToInt32. pow_consts. Z.div_mod_to_equations. lia.
Qed.

(** ** Network, broadcast and mask *)

(** X4.  For a well-formed address and a prefix length from 0 to 31, the
    network and broadcast addresses computed are well-formed addresses, the
    network address is a multiple of the block size, the broadcast address is
    the last address of that block, and the address itself lies between
    them. *)
Theorem network_broadcast_containment ip p :
  validAddress ip -> 0 <= p <= 31 ->
  let N := addressValue (calculateNetworkAddress ip p) in
  let B := addressValue (calculateBroadcastAddress ip p) in
  validAddress (calculateNetworkAddress ip p)
  /\ validAddress (calculateBroadcastAddress ip p)
  /\ N mod blockSize p = 0
  /\ B = N + blockSize p - 1
  /\ N <= addressValue ip <= B.
Proof.
  intros H Hp N B.
  split; [apply calculateNetworkAddress_valid|].
  split; [apply calculateBroadcastAddress_valid|].
  destruct (network_broadcast_bounds ip p H Hp) as (H0 & H1 & H2 & H3 & H4).
  fold N in H0, H1, H4. fold B in H2, H3, H4.
  split; [|lia].
  subst N. rewrite network_closed by assumption.
  pose proof (blockSize_pos p ltac:(lia)) as Hs.
  replace (addressValue ip - addressValue ip mod blockSize p)
    with (addressValue ip / blockSize p * blockSize p)
    by (pose proof (Z.div_mod (addressValue ip) (blockSize p) ltac:(lia)); lia).
  apply Z.mod_mul. lia.
Qed.

Lemma network_broadcast_containment_witness :
  validAddress [172; 16; 37; 200] /\ 0 <= 20 <= 31
  /\ calculateNetworkAddress [172; 16; 37; 200] 20 = [172; 16; 32; 0]
  /\ addressValue (calculateNetworkAddress [172; 16; 37; 200] 20) mod blockSize 20 = 0.
Proof.
  assert (Hv : validAddress [172; 16; 37; 200])
    by (split; [reflexivity | repeat constructor; lia]).
  assert (Hp : 0 <= 20 <= 31) by lia.
  destruct (network_broadcast_containment [172; 16; 37; 200] 20 Hv Hp)
    as (_ & _ & Hal & _).
  split; [exact Hv|]. split; [exact Hp|]. split; [reflexivity | exact Hal].
Defined.

(** X5.  At prefix length 32 the functions lose the address: for every
    well-formed address the network address comes out as 0.0.0.0 and the
    broadcast address as 255.255.255.255, while [usableRange] reports no
    usable host. *)
Theorem prefix_32_loses_address ip :
  validAddress ip ->
  calculateNetworkAddress ip 32 = [0; 0; 0; 0]
  /\ calculateBroadcastAddress ip 32 = [255; 255; 255; 255]
  /\ usableRange ip 32 = (None, None).
Proof.
  intros H. pose proof (addressValue_range ip H) as Hr.
  split; [|split].
  - rewrite calculateNetworkAddress_intToIp, intToIp_canonical.
    rewrite <- calculateNetworkAddress_intToIp, networkValue by assumption.
    change (mask 32) with 0. rewrite Z.land_0_r. reflexivity.
  - rewrite calculateBroadcastAddress_intToIp, intToIp_canonical.
    rewrite <- calculateBroadcastAddress_intToIp, broadcastValue by assumption.
    change (2 ^ 32 - 1 - mask 32) with (Z.ones 32).
    rewrite lor_low by lia. rewrite Z.mod_small by assumption.
    replace (addressValue ip - addressValue ip + (2 ^ 32 - 1)) with 4294967295
      by (pow_consts; lia).
    reflexivity.
  - rewrite usableRange_unfold. reflexivity.
Qed.

Lemma prefix_32_loses_address_witness :
  validAddress [10; 0; 0; 5]
  /\ calculateBroadcastAddress [10; 0; 0; 5] 32 = [255; 255; 255; 255].
Proof.
  assert (Hv : validAddress [10; 0; 0; 5])
    by (split; [reflexivity | repeat constructor; lia]).
  split; [exact Hv|].
  exact (proj1 (proj2 (prefix_32_loses_address [10; 0; 0; 5] Hv))).
Defined.

(** X6.  For a prefix length [p] from 0 to 31, [prefixLengthToSubnetMask]
    returns the dotted form of a well-formed address whose 32-bit value has
    exactly its top [p] bits set. *)
Theorem prefixLengthToSubnetMask_top_bits p :
  0 <= p <= 31 ->
  exists octets,
    prefixLengthToSubnetMask p = JS.join "." octets
    /\ validAddress octets
    /\ addressValue octets = 2 ^ 32 - blockSize p
    /\ forall i, 0 <= i < 32 -> Z.testbit (addressValue octets) i = (32 - p <=? i).
Proof.
  intros Hp. exists (intToIp (mask p)).
  pose proof (mask_range p) as Hr.
  assert (Hv : addressValue (intToIp (mask p)) = mask p)
    by (rewrite addressValue_intToIp; apply Z.mod_small; exact Hr).
  split; [unfold prefixLengthToSubnetMask, intToIp; reflexivity|].
  split; [apply intToIp_valid|].
  rewrite Hv. split; [apply mask_spec; assumption|].
  intros i Hi. apply mask_top_bits; assumption.
Qed.

Lemma prefixLengthToSubnetMask_top_bits_witness :
  0 <= 27 <= 31 /\ prefixLengthToSubnetMask 27 = "255.255.255.224"
  /\ exists octets, prefixLengthToSubnetMask 27 = JS.join "." octets
                    /\ addressValue octets = 2 ^ 32 - blockSize 27.
Proof.
  assert (Hp : 0 <= 27 <= 31) by lia.
  destruct (prefixLengthToSubnetMask_top_bits 27 Hp) as (octets & E & _ & Hval & _).
  split; [exact Hp|]. split; [reflexivity|].
  exists octets. split; assumption.
Defined.

(** ** The prefix sizer, for every host count *)

(** X7.  For every integer host count [h] the sizer returns a prefix length
    between 0 and 32, and for [q] from 1 to 32 the result is at least [q]
    exactly when [h + 2] addresses fit a block of prefix length [q].  So it
    returns 32 exactly for [h <= -1], 31 exactly for [h = 0], and 0 exactly
    when [h + 2] exceeds [2^31]. *)
Theorem getRequiredPrefixLength_characterised h :
  0 <= getRequiredPrefixLength h <= 32
  /\ (forall q, 1 <= q <= 32 ->
        (q <= getRequiredPrefixLength h <-> h + 2 <= blockSize q))
  /\ (getRequiredPrefixLength h = 32 <-> h <= -1)
  /\ (getRequiredPrefixLength h = 31 <-> h = 0)
  /\ (getRequiredPrefixLength h = 0 <-> 2 ^ 31 < h + 2).
Proof.
  pose proof (getRequiredPrefixLength_range h) as Hr.
  assert (Hq : forall q, 1 <= q <= 32 ->
                 (q <= getRequiredPrefixLength h <-> h + 2 <= blockSize q)).
  { intros q Hq. unfold getRequiredPrefixLength in *. cbv zeta in *.
    destruct (sizerLoop_spec (h + 2) 32) as (Hle & Hfit & Habove).
    cbv zeta in Hle, Hfit, Habove. split.
    - intros Hge. specialize (Hfit ltac:(lia)).
      pose proof (blockSize_mono q (Z.of_nat (sizerLoop (h + 2) 32)) ltac:(lia)). lia.
    - intros Hfits.
      destruct (Z.le_gt_cases q (Z.of_nat (sizerLoop (h + 2) 32))) as [|Hgt];
        [assumption|].
      specialize (Habove (Z.to_nat q) ltac:(lia)).
      rewrite Z2Nat.id in Habove by lia. lia. }
  split; [exact Hr|]. split; [exact Hq|].
  pose proof (Hq 32 ltac:(lia)) as H32. change (blockSize 32) with 1 in H32.
  pose proof (Hq 31 ltac:(lia)) as H31. change (blockSize 31) with 2 in H31.
  pose proof (Hq 1 ltac:(lia)) as H1. change (blockSize 1) with (2 ^ 31) in H1.
  repeat split; intros; lia.
Qed.

(** X8.  The sizer is monotone: a larger host count never gets a longer
    prefix (a smaller block). *)
Theorem getRequiredPrefixLength_antitone h1 h2 :
  h1 <= h2 ->
  getRequiredPrefixLength h2 <= getRequiredPrefixLength h1
  /\ blockSize (getRequiredPrefixLength h1) <= blockSize (getRequiredPrefixLength h2).
Proof.
  intros Hh.
  assert (Hle : getRequiredPrefixLength h2 <= getRequiredPrefixLength h1).
  { unfold getRequiredPrefixLength. cbv zeta.
    destruct (sizerLoop_spec (h1 + 2) 32) as (Hle1 & _ & Habove1).
    destruct (sizerLoop_spec (h2 + 2) 32) as (Hle2 & Hfit2 & _).
    cbv zeta in Hle1, Habove1, Hle2, Hfit2.
    destruct (Nat.le_gt_cases (sizerLoop (h2 + 2) 32) (sizerLoop (h1 + 2) 32))
      as [|Hgt]; [lia|].
    specialize (Hfit2 ltac:(lia)).
    specialize (Habove1 (sizerLoop (h2 + 2) 32) ltac:(lia)). lia. }
  split; [exact Hle|].
  apply blockSize_mono. pose proof (getRequiredPrefixLength_range h1). lia.
Qed.

Lemma getRequiredPrefixLength_antitone_witness :
  20 <= 50 /\ getRequiredPrefixLength 50 <= getRequiredPrefixLength 20.
Proof.
  assert (H : 20 <= 50) by lia.
  split; [exact H | exact (proj1 (getRequiredPrefixLength_antitone 20 50 H))].
Defined.

Section Room.

(** [usableRange] below /31, in terms of the values of the block. *)
Lemma usableRange_below_31 ip p :
  validAddress ip -> 0 <= p <= 30 ->
  let N := addressValue (calculateNetworkAddress ip p) in
  let B := addressValue (calculateBroadcastAddress ip p) in
  usableRange ip p
  = (Some (JS.join "." (octetsOf (N + 1))), Some (JS.join "." (octetsOf (B - 1)))).
Proof.
  intros H Hp N B.
  destruct (network_broadcast_bounds ip p H ltac:(lia)) as (H0 & H1 & H2 & H3 & H4).
  pose proof (blockSize_ge4 p ltac:(lia)).
  fold N in H0, H1, H4. fold B in H2, H3, H4.
  rewrite usableRange_unfold. cbv zeta.
  destruct (Z.geb_spec p 31) as [Hge|_]; [lia|].
  rewrite <- (Z.add_opp_r (ipToInt (calculateBroadcastAddress ip p)) 1).
  rewrite (intToIp_shift (calculateNetworkAddress ip p) 1)
    by (apply calculateNetworkAddress_valid || (fold N; lia)).
  rewrite (intToIp_shift (calculateBroadcastAddress ip p) (Z.opp 1))
    by (apply calculateBroadcastAddress_valid || (fold B; lia)).
  rewrite Z.add_opp_r. reflexivity.
Qed.

End Room.

(** X9.  Sizing and usable range fit together: for a host count [h] from 1
    up to [2^32 - 2], the prefix length chosen is at most 30 and the usable
    range of any block of that prefix length, from network + 1 to
    broadcast - 1, holds at least [h] addresses. *)
Theorem sized_block_has_room ip h :
  validAddress ip -> 1 <= h -> h + 2 <= 2 ^ 32 ->
  let p := getRequiredPrefixLength h in
  let N := addressValue (calculateNetworkAddress ip p) in
  let B := addressValue (calculateBroadcastAddress ip p) in
  0 <= p <= 30
  /\ usableRange ip p
     = (Some (JS.join "." (octetsOf (N + 1))), Some (JS.join "." (octetsOf (B - 1))))
  /\ h <= (B - 1) - (N + 1) + 1.
Proof.
  intros H Hh Hmax p N B.
  pose proof (getRequiredPrefixLength_range h) as Hr. fold p in Hr.
  assert (Hfit : h + 2 <= blockSize p).
  { subst p. unfold getRequiredPrefixLength. cbv zeta.
    destruct (sizerLoop_spec (h + 2) 32) as (_ & Hfit & _). cbv zeta in Hfit.
    destruct (Nat.eq_dec (sizerLoop (h + 2) 32) 0) as [E|Hne].
    - rewrite E. change (blockSize (Z.of_nat 0)) with (2 ^ 32). exact Hmax.
    - apply Hfit. lia. }
  assert (Hp : p <= 30).
  { destruct (Z.le_gt_cases p 30) as [|Hgt]; [assumption|].
    pose proof (blockSize_mono 31 p ltac:(lia)) as Hm.
    change (blockSize 31) with 2 in Hm. lia. }
  split; [lia|]. split; [apply usableRange_below_31; [assumption | lia]|].
  destruct (network_broadcast_bounds ip p H ltac:(lia)) as (_ & _ & _ & _ & H4).
  fold N in H4. fold B in H4. lia.
Qed.

Lemma sized_block_has_room_witness :
  validAddress [192; 168; 1; 64] /\ 1 <= 20 /\ 20 + 2 <= 2 ^ 32
  /\ getRequiredPrefixLength 20 = 27
  /\ usableRange [192; 168; 1; 64] (getRequiredPrefixLength 20)
     = (Some "192.168.1.65", Some "192.168.1.94").
Proof.
  assert (Hv : validAddress [192; 168; 1; 64])
    by (split; [reflexivity | repeat constructor; lia]).
  assert (H1 : 1 <= 20) by lia.
  assert (H2 : 20 + 2 <= 2 ^ 32) by (vm_compute; discriminate).
  destruct (sized_block_has_room [192; 168; 1; 64] 20 Hv H1 H2) as (_ & E & _).
  repeat (split; [assumption|]). split; [reflexivity|].
  rewrite E. vm_compute. reflexivity.
Defined.

(** ** The allocation walk, further *)

Section Walk.

(** What a successful allocation is made of. *)
Lemma allocate_rows ip P hs rows :
  allocate ip P hs = Ok rows ->
  let l := JS.sort bySizeDesc (requiredSubnets hs) in
  rows = allocateFrom (ipToInt ip) 0 l
  /\ sizeSum l <= blockSize P
  /\ Forall sized l
  /\ StronglySorted largerFirst l
  /\ Permutation l (requiredSubnets hs).
Proof.
  intros Halloc l. rewrite allocate_unfold in Halloc.
  destruct (Z.gtb_spec (blockSizeSum hs) (blockSize P)) as [Hgt|Hle]; [discriminate|].
  injection Halloc as <-. fold l.
  assert (Hperm : Permutation l (requiredSubnets hs)) by apply sort_perm.
  split; [reflexivity|]. split.
  - rewrite (sizeSum_perm _ _ Hperm), sizeSum_requiredSubnets. exact Hle.
  - split; [|split; [apply sort_sorted | exact Hperm]].
    eapply Permutation_Forall; [apply Permutation_sym, Hperm | apply requiredSubnets_sized].
Qed.

Lemma sized_nonneg l : Forall sized l -> Forall (fun s => 0 <= subnetSize s) l.
Proof.
  intros H. eapply Forall_impl; [|exact H]. intros s (_ & Hs & Hp).
  pose proof (blockSize_pos (prefixLength s) ltac:(lia)). lia.
Qed.

(** In a sorted list every subnet before position [k] is at least as large
    as the one at [k]. *)
Lemma sorted_before l k s :
  StronglySorted largerFirst l -> nth_error l k = Some s ->
  Forall (fun x => largerFirst x s) (firstn k l).
Proof.
  intros Hs. revert k. induction Hs as [|x l Hs IH Hx]; intros k Hk.
  - destruct k; discriminate Hk.
  - destruct k as [|k]; cbn [firstn nth_error] in *; [constructor|].
    constructor; [|apply IH; exact Hk].
    apply nth_error_In in Hk. exact (proj1 (Forall_forall _ _) Hx s Hk).
Qed.

Lemma blockSize_divides p q : 0 <= q <= p -> p <= 32 -> (blockSize p | blockSize q).
Proof.
  intros Hq Hp. exists (2 ^ (p - q)). unfold blockSize.
  rewrite <- Z.pow_add_r by lia. f_equal. lia.
Qed.

Lemma blockSize_le_inv p q :
  0 <= p <= 32 -> 0 <= q <= 32 -> blockSize p <= blockSize q -> q <= p.
Proof.
  intros Hp Hq Hle. unfold blockSize in Hle.
  apply Z.pow_le_mono_r_iff in Hle; lia.
Qed.

Lemma sizeSum_divides d l :
  Forall (fun x => (d | subnetSize x)) l -> (d | sizeSum l).
Proof.
  induction 1 as [|x l Hx _ IH]; [apply Z.divide_0_r|].
  change (d | subnetSize x + sizeSum l). apply Z.divide_add_r; assumption.
Qed.

End Walk.

(** X10.  On success every row starts at the base address advanced by the
    sizes of the rows before it, modulo 2^32; the first row starts at the
    base address exactly as given, whether or not that address is aligned to
    the base prefix; and the row's network text is that start address with
    the row's prefix length. *)
Theorem allocation_walk ip P hs rows k r :
  validAddress ip -> allocate ip P hs = Ok rows -> nth_error rows k = Some r ->
  rangeLow r
  = (addressValue ip + sizeSum (firstn k (map row_subnet rows))) mod 2 ^ 32
  /\ (k = 0%nat -> row_network r = ip)
  /\ network (row_details r)
     = JS.join "." (row_network r) ++ "/" ++ JS.toString (row_prefixLength r)
  /\ row_prefixLength r = getRequiredPrefixLength (hosts (row_subnet r)).
Proof.
  intros Hip Halloc Hr.
  destruct (allocate_rows ip P hs rows Halloc) as (-> & _ & Hsized & _ & _).
  rewrite map_row_subnet.
  apply allocateFrom_nth_inv in Hr. destruct Hr as (s & Hs & ->).
  destruct (allocateOne_fields
              (ipToInt ip
               + sizeSum (firstn k (JS.sort bySizeDesc (requiredSubnets hs)))) s (0 + k))
    as (_ & Hsub & Hn & Hp & _ & _ & Hnet & _).
  unfold rangeLow. rewrite Hn, Hp, Hnet, Hsub, addressValue_intToIp.
  rewrite <- Z.add_mod_idemp_l, ipToInt_mod by (assumption || (vm_compute; congruence)).
  split; [reflexivity|]. split; [|split; [reflexivity|]].
  - intros ->. change (sizeSum (firstn 0 (JS.sort bySizeDesc (requiredSubnets hs)))) with 0.
    rewrite Z.add_0_r. apply intToIp_ipToInt. assumption.
  - apply nth_error_In in Hs.
    exact (proj1 (proj1 (Forall_forall _ _) Hsized s Hs)).
Qed.

Lemma allocation_walk_witness :
  exists rows r,
    validAddress [192; 168; 1; 7]
    /\ allocate [192; 168; 1; 7] 24 [10; 50] = Ok rows
    /\ nth_error rows 1 = Some r
    /\ rangeLow r = (addressValue [192; 168; 1; 7] + 64) mod 2 ^ 32
    /\ network (row_details r) = "192.168.1.71/28".
Proof.
  assert (Hv : validAddress [192; 168; 1; 7])
    by (split; [reflexivity | repeat constructor; lia]).
  assert (Ha : allocate [192; 168; 1; 7] 24 [10; 50]
               = Ok (allocateFrom (ipToInt [192; 168; 1; 7]) 0
                       (JS.sort bySizeDesc (requiredSubnets [10; 50]))))
    by (rewrite allocate_unfold; reflexivity).
  assert (Hr : nth_error (allocateFrom (ipToInt [192; 168; 1; 7]) 0
                            (JS.sort bySizeDesc (requiredSubnets [10; 50]))) 1
               = Some (allocateOne (ipToInt [192; 168; 1; 7] + 64) (mkSubnet 10 28 16) 1))
    by reflexivity.
  eexists. eexists. split; [exact Hv|]. split; [exact Ha|]. split; [exact Hr|].
  destruct (allocation_walk [192; 168; 1; 7] 24 [10; 50] _ 1%nat _ Hv Ha Hr) as (E & _).
  split; [exact E | vm_compute; reflexivity].
Defined.

(** A walk that starts aligned: the cursor at position [k] has not wrapped
    and is a multiple of the size of the subnet placed there. *)
Lemma aligned_start ip P hs rows k s :
  validAddress ip -> 0 <= P <= 32 -> addressValue ip mod blockSize P = 0 ->
  Forall (fun h => 0 <= h) hs ->
  allocate ip P hs = Ok rows ->
  nth_error (JS.sort bySizeDesc (requiredSubnets hs)) k = Some s ->
  let a := sizeSum (firstn k (JS.sort bySizeDesc (requiredSubnets hs))) in
  P <= prefixLength s <= 31
  /\ subnetSize s = blockSize (prefixLength s)
  /\ 0 <= a
  /\ a + subnetSize s <= blockSize P
  /\ addressValue ip + blockSize P <= 2 ^ 32
  /\ addressValue (intToIp (ipToInt ip + a)) = addressValue ip + a
  /\ (addressValue ip + a) mod blockSize (prefixLength s) = 0.
Proof.
  intros Hip HP Halign Hhs Halloc Hs a.
  destruct (allocate_rows ip P hs rows Halloc) as (_ & Htotal & Hsized & Hsorted & Hperm).
  set (l := JS.sort bySizeDesc (requiredSubnets hs)) in *.
  pose proof (sized_nonneg l Hsized) as Hpos.
  pose proof (nth_error_In _ _ Hs) as Hin.
  destruct (proj1 (Forall_forall _ _) Hsized s Hin) as (Hps & Hsz & Hpr).
  assert (H31 : prefixLength s <= 31).
  { rewrite Hps. apply getRequiredPrefixLength_le31.
    apply (Permutation_in _ Hperm) in Hin. unfold requiredSubnets in Hin.
    apply in_map_iff in Hin. destruct Hin as (h & <- & Hh). cbn.
    exact (proj1 (Forall_forall _ _) Hhs h Hh). }
  pose proof (sizeSum_firstn_step l k s Hs) as Hstep. fold a in Hstep.
  pose proof (sizeSum_firstn_le l (S k) Hpos) as Hend.
  pose proof (sizeSum_firstn_mono l 0 k Hpos ltac:(lia)) as Hstart.
  change (sizeSum (firstn 0 l)) with 0 in Hstart. fold a in Hstart.
  pose proof (blockSize_pos (prefixLength s) ltac:(lia)) as Hs1.
  pose proof (addressValue_range ip Hip) as Hu.
  pose proof (aligned_room (addressValue ip) P Hu HP) as [_ Hroom].
  rewrite Halign, Z.sub_0_r in Hroom.
  assert (HPp : P <= prefixLength s)
    by (apply (blockSize_le_inv (prefixLength s) P); lia).
  assert (Hlow : addressValue (intToIp (ipToInt ip + a)) = addressValue ip + a).
  { rewrite addressValue_intToIp.
    rewrite <- Z.add_mod_idemp_l, ipToInt_mod by (assumption || (vm_compute; congruence)).
    apply Z.mod_small. lia. }
  assert (Hdiv : (blockSize (prefixLength s) | addressValue ip + a)).
  { apply Z.divide_add_r.
    - apply Z.divide_trans with (blockSize P).
      + apply blockSize_divides; lia.
      + apply Z.mod_divide; [pose proof (blockSize_pos P ltac:(lia)); lia | exact Halign].
    - rewrite <- Hsz. apply sizeSum_divides.
      pose proof (sorted_before l k s Hsorted Hs) as Hbefore.
      assert (Hsz_before : Forall sized (firstn k l)).
      { rewrite <- (firstn_skipn k l) in Hsized. apply Forall_app in Hsized. tauto. }
      apply Forall_forall. intros x Hx.
      pose proof (proj1 (Forall_forall _ _) Hbefore x Hx) as Hle. unfold largerFirst in Hle.
      destruct (proj1 (Forall_forall _ _) Hsz_before x Hx) as (_ & Hxs & Hxp).
      rewrite Hsz, Hxs. apply blockSize_divides; [|lia].
      split; [lia|]. apply blockSize_le_inv; lia. }
  repeat split; try lia; try assumption.
  apply Z.mod_divide; [lia | exact Hdiv].
Qed.

(** X11.  When the base address is aligned to the base prefix and no host
    count is negative, every row of a successful allocation is a proper CIDR
    block inside the base network: its start address is a multiple of its
    block size, its broadcast address is the last address of that block, its
    prefix length is at least the base prefix length, and the block lies
    within the base block. *)
Theorem aligned_base_gives_cidr_blocks ip P hs rows k r :
  validAddress ip -> 0 <= P <= 32 -> addressValue ip mod blockSize P = 0 ->
  Forall (fun h => 0 <= h) hs ->
  allocate ip P hs = Ok rows -> nth_error rows k = Some r ->
  let p := row_prefixLength r in
  P <= p <= 31
  /\ rangeLow r mod blockSize p = 0
  /\ rangeHigh r = rangeLow r + blockSize p - 1
  /\ addressValue ip <= rangeLow r
  /\ rangeHigh r <= addressValue ip + blockSize P - 1
  /\ row_network r = calculateNetworkAddress (row_network r) p.
Proof.
  intros Hip HP Halign Hhs Halloc Hr p.
  destruct (allocate_rows ip P hs rows Halloc) as (Hrows & _).
  rewrite Hrows in Hr.
  apply allocateFrom_nth_inv in Hr. destruct Hr as (s & Hs & ->).
  destruct (aligned_start ip P hs rows k s Hip HP Halign Hhs Halloc Hs)
    as (Hp & Hsz & Ha0 & Hfit & Hroom & Hlow & Hmod).
  set (a := sizeSum (firstn k (JS.sort bySizeDesc (requiredSubnets hs)))) in *.
  destruct (allocateOne_fields (ipToInt ip + a) s (0 + k))
    as (_ & _ & Hn & Hpr & Hb & _).
  subst p. unfold rangeLow, rangeHigh. rewrite Hn, Hpr, Hb.
  rewrite broadcast_closed by (apply intToIp_valid || lia).
  rewrite Hlow, Hmod.
  split; [lia|]. split; [reflexivity|]. split; [lia|]. split; [lia|]. split; [lia|].
  assert (E1 : intToIp (ipToInt ip + a) = octetsOf (addressValue ip + a))
    by (rewrite intToIp_canonical, Hlow; reflexivity).
  assert (E2 : calculateNetworkAddress (intToIp (ipToInt ip + a)) (prefixLength s)
               = octetsOf (addressValue ip + a)).
  { rewrite calculateNetworkAddress_intToIp, intToIp_canonical.
    rewrite <- calculateNetworkAddress_intToIp.
    rewrite network_closed by (apply intToIp_valid || lia).
    rewrite Hlow, Hmod, Z.sub_0_r. reflexivity. }
  rewrite E2. exact E1.
Qed.

Lemma aligned_base_gives_cidr_blocks_witness :
  exists rows r,
    validAddress [10; 1; 0; 0] /\ 0 <= 22 <= 32
    /\ addressValue [10; 1; 0; 0] mod blockSize 22 = 0
    /\ Forall (fun h => 0 <= h) [100; 500; 20]
    /\ allocate [10; 1; 0; 0] 22 [100; 500; 20] = Ok rows
    /\ nth_error rows 1 = Some r
    /\ network (row_details r) = "10.1.2.0/25"
    /\ rangeLow r mod blockSize (row_prefixLength r) = 0
    /\ rangeHigh r <= addressValue [10; 1; 0; 0] + blockSize 22 - 1.
Proof.
  assert (Hv : validAddress [10; 1; 0; 0])
    by (split; [reflexivity | repeat constructor; lia]).
  assert (HP : 0 <= 22 <= 32) by lia.
  assert (Hal : addressValue [10; 1; 0; 0] mod blockSize 22 = 0) by reflexivity.
  assert (Hh : Forall (fun h => 0 <= h) [100; 500; 20]) by (repeat constructor; lia).
  assert (Ha : allocate [10; 1; 0; 0] 22 [100; 500; 20]
               = Ok (allocateFrom (ipToInt [10; 1; 0; 0]) 0
                       (JS.sort bySizeDesc (requiredSubnets [100; 500; 20]))))
    by (rewrite allocate_unfold; reflexivity).
  assert (Hr : nth_error (allocateFrom (ipToInt [10; 1; 0; 0]) 0
                            (JS.sort bySizeDesc (requiredSubnets [100; 500; 20]))) 1
               = Some (allocateOne (ipToInt [10; 1; 0; 0] + 512) (mkSubnet 100 25 128) 1))
    by reflexivity.
  eexists. eexists.
  split; [exact Hv|]. split; [exact HP|]. split; [exact Hal|]. split; [exact Hh|].
  split; [exact Ha|]. split; [exact Hr|]. split; [vm_compute; reflexivity|].
  destruct (aligned_base_gives_cidr_blocks [10; 1; 0; 0] 22 [100; 500; 20] _ 1%nat _
              Hv HP Hal Hh Ha Hr) as (_ & Hmod & _ & _ & Hhi & _).
  split; [exact Hmod | exact Hhi].
Defined.

Section Order.

Lemma sorted_perm_eq (l1 l2 : list Z) :
  StronglySorted (fun a b => b <= a) l1 -> StronglySorted (fun a b => b <= a) l2 ->
  Permutation l1 l2 -> l1 = l2.
Proof.
  intros H1. revert l2. induction H1 as [|x l1 Hs1 IH Hx]; intros l2 H2 Hperm.
  - apply Permutation_nil in Hperm. subst. reflexivity.
  - destruct H2 as [|y l2 Hs2 Hy].
    + apply Permutation_sym, Permutation_nil in Hperm. discriminate Hperm.
    + assert (Hxy : x = y).
      { assert (Hxin : In x (y :: l2))
          by (apply (Permutation_in _ Hperm); left; reflexivity).
        assert (Hyin : In y (x :: l1))
          by (apply (Permutation_in _ (Permutation_sym Hperm)); left; reflexivity).
        destruct Hxin as [->|Hxin]; [reflexivity|].
        destruct Hyin as [->|Hyin]; [reflexivity|].
        pose proof (proj1 (Forall_forall _ _) Hy x Hxin) as Hle1.
        pose proof (proj1 (Forall_forall _ _) Hx y Hyin) as Hle2.
        cbv beta in Hle1, Hle2. lia. }
      subst y. f_equal. apply IH; [exact Hs2|].
      apply Permutation_cons_inv with x. exact Hperm.
Qed.

Lemma sizes_sorted l :
  StronglySorted largerFirst l ->
  StronglySorted (fun a b => b <= a) (map subnetSize l).
Proof.
  induction 1 as [|x l Hs IH Hx]; cbn [map]; constructor; [exact IH|].
  apply Forall_map. exact Hx.
Qed.

(** The prefix length of a sized subnet can be read off its size. *)
Lemma sized_prefix s : sized s -> prefixLength s = 32 - Z.log2 (subnetSize s).
Proof.
  intros (_ & Hs & Hp). rewrite Hs. unfold blockSize.
  rewrite Z.log2_pow2 by lia. lia.
Qed.

Lemma planOf_congr c s s' i i' :
  prefixLength s = prefixLength s' ->
  planOf (allocateOne c s i) = planOf (allocateOne c s' i').
Proof.
  intros E. unfold planOf, allocateOne. cbv zeta. rewrite <- E.
  destruct (usableRange (intToIp c) (prefixLength s)) as [firstHost lastHost].
  cbn [row_details network broadcast hostRange subnetMask]. reflexivity.
Qed.

Lemma allocateFrom_plan l : forall l' c i i',
  map prefixLength l = map prefixLength l' ->
  map subnetSize l = map subnetSize l' ->
  map planOf (allocateFrom c i l) = map planOf (allocateFrom c i' l').
Proof.
  induction l as [|s l IH]; intros [|s' l'] c i i' Hp Hs; try discriminate.
  - reflexivity.
  - cbn [map allocateFrom] in *.
    injection Hp as Hp0 Hp. injection Hs as Hs0 Hs.
    rewrite (planOf_congr c s s' i i' Hp0), Hs0.
    f_equal. apply IH; assumption.
Qed.

Lemma blockSizeSum_perm hs hs' : Permutation hs hs' -> blockSizeSum hs = blockSizeSum hs'.
Proof.
  unfold blockSizeSum. induction 1; cbn [map fold_right] in *; lia.
Qed.

End Order.

(** X12.  The address plan does not depend on the order in which the host
    counts are entered: for two orderings of the same host counts the
    allocation fails for both or succeeds for both, and then position by
    position the entries have the same network, broadcast address, host range
    and subnet mask (only the host count in the name can differ). *)
Theorem plan_independent_of_order ip P hs hs' :
  Permutation hs hs' ->
  match allocate ip P hs, allocate ip P hs' with
  | Ok rows, Ok rows' => map planOf rows = map planOf rows'
  | Throw message, Throw message' => message = message'
  | _, _ => False
  end.
Proof.
  intros Hperm. rewrite !allocate_unfold, (blockSizeSum_perm hs hs' Hperm).
  destruct (blockSizeSum hs' >? blockSize P); [reflexivity|].
  set (l := JS.sort bySizeDesc (requiredSubnets hs)).
  set (l' := JS.sort bySizeDesc (requiredSubnets hs')).
  assert (Hl : Permutation l l').
  { eapply perm_trans; [apply sort_perm|].
    eapply perm_trans; [|apply Permutation_sym, sort_perm].
    apply Permutation_map. exact Hperm. }
  assert (Hsizes : map subnetSize l = map subnetSize l').
  { apply sorted_perm_eq; try (apply sizes_sorted, sort_sorted).
    apply Permutation_map. exact Hl. }
  assert (Hsized : forall hs0, Forall sized (JS.sort bySizeDesc (requiredSubnets hs0))).
  { intros hs0. eapply Permutation_Forall;
      [apply Permutation_sym, sort_perm | apply requiredSubnets_sized]. }
  assert (Hprefix : forall m, Forall sized m ->
                      map prefixLength m = map (fun z => 32 - Z.log2 z) (map subnetSize m)).
  { intros m Hm. rewrite map_map. apply map_ext_in. intros s Hs.
    apply sized_prefix. exact (proj1 (Forall_forall _ _) Hm s Hs). }
  apply allocateFrom_plan; [|exact Hsizes].
  rewrite (Hprefix l (Hsized hs)), (Hprefix l' (Hsized hs')), Hsizes. reflexivity.
Qed.

Lemma plan_independent_of_order_witness :
  Permutation [10; 50; 20] [20; 10; 50]
  /\ match allocate [192; 168; 1; 0] 24 [10; 50; 20],
           allocate [192; 168; 1; 0] 24 [20; 10; 50] with
     | Ok rows, Ok rows' => map planOf rows = map planOf rows'
     | Throw message, Throw message' => message = message'
     | _, _ => False
     end.
Proof.
  assert (Hp : Permutation [10; 50; 20] [20; 10; 50]).
  { apply perm_trans with [10; 20; 50].
    - apply perm_skip, perm_swap.
    - apply perm_swap. }
  split; [exact Hp|].
  exact (plan_independent_of_order [192; 168; 1; 0] 24 _ _ Hp).
Defined.

(** ** The host range text *)

Section HostRange.

Lemma append_nonempty x c y : String.eqb (x ++ String c y) "" = false.
Proof. destruct x; reflexivity. Qed.

Lemma join4_nonempty a b c d : String.eqb (JS.join "." [a; b; c; d]) "" = false.
Proof.
  unfold JS.join. cbn [map String.concat].
  change ("." ++ ?s) with (String "." s). apply append_nonempty.
Qed.

(** Up to /31 [usableRange] returns two non-empty strings. *)
Lemma usableRange_some ip p :
  p <= 31 ->
  exists first last,
    usableRange ip p = (Some first, Some last)
    /\ String.eqb first "" = false /\ String.eqb last "" = false.
Proof.
  intros Hp. rewrite usableRange_unfold. cbv zeta.
  destruct (Z.geb_spec p 31) as [Hge|Hlt].
  - assert (E : p = 31) by lia. rewrite E, Z.eqb_refl.
    eexists. eexists. split; [reflexivity|]. split; apply join4_nonempty.
  - eexists. eexists. split; [reflexivity|]. split; apply join4_nonempty.
Qed.

Lemma getRequiredPrefixLength_negative h : h <= -1 -> getRequiredPrefixLength h = 32.
Proof.
  intros Hh. unfold getRequiredPrefixLength. cbv zeta. cbn [sizerLoop].
  unfold JS.pow2. change (2 ^ (32 - Z.of_nat 32)) with 1.
  destruct (Z.geb_spec 1 (h + 2)); [reflexivity | lia].
Qed.

Lemma allocateOne_hostRange c s i :
  hostRange (row_details (allocateOne c s i))
  = (if negb (falsy (fst (usableRange (intToIp c) (prefixLength s))))
        && negb (falsy (snd (usableRange (intToIp c) (prefixLength s))))
     then elementOr (fst (usableRange (intToIp c) (prefixLength s))) ++ " - "
          ++ elementOr (snd (usableRange (intToIp c) (prefixLength s)))
     else "No usable hosts").
Proof.
  unfold allocateOne. cbv zeta.
  destruct (usableRange (intToIp c) (prefixLength s)) as [firstHost lastHost].
  reflexivity.
Qed.

End HostRange.

(** X13.  In a successful allocation an entry reads "No usable hosts" when
    its host count is below 0 (such a subnet is sized /32); for a host count
    that is not negative the entry's host range is the two addresses that
    [usableRange] returns for the row, joined by " - ". *)
Theorem host_range_text ip P hs rows r :
  allocate ip P hs = Ok rows -> In r rows ->
  (hosts (row_subnet r) <= -1 ->
     row_prefixLength r = 32 /\ hostRange (row_details r) = "No usable hosts")
  /\ (0 <= hosts (row_subnet r) ->
      exists first last,
        usableRange (row_network r) (row_prefixLength r) = (Some first, Some last)
        /\ hostRange (row_details r) = first ++ " - " ++ last).
Proof.
  intros Halloc Hin.
  destruct (allocate_rows ip P hs rows Halloc) as (-> & _ & Hsized & _ & _).
  apply In_nth_error in Hin. destruct Hin as (k & Hk).
  apply allocateFrom_nth_inv in Hk. destruct Hk as (s & Hs & ->).
  set (c := ipToInt ip + sizeSum (firstn k (JS.sort bySizeDesc (requiredSubnets hs)))).
  destruct (allocateOne_fields c s (0 + k)) as (_ & Hsub & Hn & Hp & _).
  rewrite Hsub, Hn, Hp, allocateOne_hostRange.
  apply nth_error_In in Hs.
  destruct (proj1 (Forall_forall _ _) Hsized s Hs) as (Hps & _ & _).
  split.
  - intros Hneg. rewrite Hps, (getRequiredPrefixLength_negative _ Hneg).
    split; [reflexivity|]. rewrite usableRange_unfold. reflexivity.
  - intros Hpos.
    destruct (usableRange_some (intToIp c) (prefixLength s)) as (first & last & E & Hf & Hl).
    { rewrite Hps. apply getRequiredPrefixLength_le31. exact Hpos. }
    exists first, last. split; [exact E|].
    rewrite E. cbn [fst snd falsy elementOr]. rewrite Hf, Hl. reflexivity.
Qed.

Lemma host_range_text_witness :
  exists rows r,
    allocate [10; 0; 0; 0] 24 [0; -1] = Ok rows /\ In r rows
    /\ hosts (row_subnet r) <= -1
    /\ hostRange (row_details r) = "No usable hosts".
Proof.
  assert (Ha : allocate [10; 0; 0; 0] 24 [0; -1]
               = Ok (allocateFrom (ipToInt [10; 0; 0; 0]) 0
                       (JS.sort bySizeDesc (requiredSubnets [0; -1]))))
    by (rewrite allocate_unfold; reflexivity).
  assert (Hin : In (allocateOne (ipToInt [10; 0; 0; 0] + 2) (mkSubnet (-1) 32 1) 1)
                  (allocateFrom (ipToInt [10; 0; 0; 0]) 0
                     (JS.sort bySizeDesc (requiredSubnets [0; -1]))))
    by (right; left; reflexivity).
  assert (Hneg : hosts (row_subnet
                          (allocateOne (ipToInt [10; 0; 0; 0] + 2) (mkSubnet (-1) 32 1) 1))
                 <= -1)
    by (vm_compute; discriminate).
  eexists. eexists. split; [exact Ha|]. split; [exact Hin|]. split; [exact Hneg|].
  exact (proj2 (proj1 (host_range_text [10; 0; 0; 0] 24 [0; -1] _ _ Ha Hin) Hneg)).
Defined.

(** ** Splitting *)

Section Split.

Lemma occurrences_0_cons sep d a :
  occurrences sep (String d a) = 0%nat ->
  Ascii.eqb d sep = false /\ occurrences sep a = 0%nat.
Proof.
  cbn [occurrences]. destruct (Ascii.eqb d sep); [discriminate|].
  intros H. split; [reflexivity | exact H].
Qed.

Lemma occurrences_app sep a b :
  occurrences sep (a ++ b) = (occurrences sep a + occurrences sep b)%nat.
Proof.
  induction a as [|d a IH]; cbn [append occurrences]; [reflexivity|].
  rewrite IH. lia.
Qed.

Lemma split_no_sep sep a : occurrences sep a = 0%nat -> JSString.split sep a = [a].
Proof.
  induction a as [|d a IH]; intros H; [reflexivity|].
  apply occurrences_0_cons in H. destruct H as [Hd Ha].
  cbn [JSString.split]. rewrite Hd, (IH Ha). reflexivity.
Qed.

Lemma split_app_sep sep a b :
  occurrences sep a = 0%nat ->
  JSString.split sep (a ++ String sep b) = a :: JSString.split sep b.
Proof.
  induction a as [|d a IH]; intros H.
  - cbn [append JSString.split]. rewrite Ascii.eqb_refl. reflexivity.
  - apply occurrences_0_cons in H. destruct H as [Hd Ha].
    cbn [append JSString.split]. rewrite Hd, (IH Ha). reflexivity.
Qed.

Lemma split_length sep s :
  List.length (JSString.split sep s) = S (occurrences sep s).
Proof.
  induction s as [|d s IH]; [reflexivity|].
  cbn [JSString.split occurrences]. destruct (Ascii.eqb d sep).
  - cbn [List.length]. rewrite IH. reflexivity.
  - destruct (JSString.split sep s) as [|w ws]; [discriminate IH|].
    cbn [List.length] in *. exact IH.
Qed.

(** Splitting undoes joining, for fields that do not hold the separator. *)
Lemma split_concat sep fields :
  fields <> [] -> Forall (fun f => occurrences sep f = 0%nat) fields ->
  JSString.split sep (String.concat (String sep "") fields) = fields.
Proof.
  induction fields as [|f fields IH]; intros Hne Hall; [contradiction Hne; reflexivity|].
  apply Forall_cons_iff in Hall. destruct Hall as [Hf Hall].
  destruct fields as [|g fields].
  - cbn [String.concat]. apply split_no_sep. exact Hf.
  - change (String.concat (String sep "") (f :: g :: fields))
      with (f ++ String sep (String.concat (String sep "") (g :: fields))).
    rewrite split_app_sep by exact Hf. f_equal.
    apply IH; [discriminate | exact Hall].
Qed.

End Split.

(** X14.  [parseCIDR] looks at the first two parts only: whatever follows a
    second slash is ignored, so such an input is parsed (or rejected) exactly
    as the input cut before that slash. *)
Theorem parseCIDR_ignores_after_second_slash a b rest :
  occurrences "/" a = 0%nat -> occurrences "/" b = 0%nat ->
  parseCIDR (a ++ "/" ++ b ++ "/" ++ rest) = parseCIDR (a ++ "/" ++ b).
Proof.
  intros Ha Hb. unfold parseCIDR. cbv zeta.
  change (a ++ "/" ++ b ++ "/" ++ rest) with (a ++ String "/" (b ++ String "/" rest)).
  change (a ++ "/" ++ b) with (a ++ String "/" b).
  rewrite !(split_app_sep "/" a) by exact Ha.
  rewrite (split_app_sep "/" b) by exact Hb.
  rewrite (split_no_sep "/" b) by exact Hb.
  reflexivity.
Qed.

Lemma parseCIDR_ignores_after_second_slash_witness :
  occurrences "/" "10.0.0.0" = 0%nat /\ occurrences "/" "24" = 0%nat
  /\ parseCIDR "10.0.0.0/24/anything"
     = Ok {| cidr_ip := [Finite 10%Q; Finite 0%Q; Finite 0%Q; Finite 0%Q];
             cidr_prefixLength := Finite 24%Q |}.
Proof.
  assert (Ha : occurrences "/" "10.0.0.0" = 0%nat) by reflexivity.
  assert (Hb : occurrences "/" "24" = 0%nat) by reflexivity.
  split; [exact Ha|]. split; [exact Hb|].
  change "10.0.0.0/24/anything" with ("10.0.0.0" ++ "/" ++ "24" ++ "/" ++ "anything").
  rewrite (parseCIDR_ignores_after_second_slash "10.0.0.0" "24" "anything" Ha Hb).
  vm_compute. reflexivity.
Defined.

(** ** Parsing what the program prints *)

(** Case analysis on an octet, given its bounds. *)
Ltac each_octet o :=
  let k := fresh "k" in
  let E := fresh "E" in
  assert (E : o = Z.of_nat (Z.to_nat o)) by lia;
  revert E; generalize (Z.to_nat o); intros k E; subst o;
  do 256 (destruct k as [|k]; [vm_compute; repeat split|]); lia.

Section Printed.

(** The decimal text of an octet: no dot, no slash, not empty, and [Number]
    reads the octet back. *)
Lemma octet_text o :
  0 <= o <= 255 ->
  JSNumber.Number (JS.toString o) = Finite (inject_Z o)
  /\ occurrences "." (JS.toString o) = 0%nat
  /\ occurrences "/" (JS.toString o) = 0%nat.
Proof. intros Ho. each_octet o. Qed.

(** The decimal text of a prefix length: [parseInt] reads it back. *)
Lemma prefix_text p :
  0 <= p <= 32 ->
  JSNumber.parseInt (JS.toString p) = Finite (inject_Z p)
  /\ occurrences "/" (JS.toString p) = 0%nat
  /\ String.eqb (JS.toString p) "" = false.
Proof. intros Hp. assert (0 <= p <= 255) by lia. clear Hp. each_octet p. Qed.

End Printed.

(** The text of four octets and a prefix length, parsed. *)
Lemma parseCIDR_printed z z0 z1 z2 p :
  0 <= z <= 255 -> 0 <= z0 <= 255 -> 0 <= z1 <= 255 -> 0 <= z2 <= 255 ->
  0 <= p <= 32 ->
  parseCIDR (JS.join "." [z; z0; z1; z2] ++ "/" ++ JS.toString p)
  = Ok {| cidr_ip := [Finite (inject_Z z); Finite (inject_Z z0);
                      Finite (inject_Z z1); Finite (inject_Z z2)];
          cidr_prefixLength := Finite (inject_Z p) |}.
Proof.
  intros Ho Ho0 Ho1 Ho2 Hp.
  destruct (octet_text z Ho) as (Na & Da & Sa).
  destruct (octet_text z0 Ho0) as (Nb & Db & Sb).
  destruct (octet_text z1 Ho1) as (Nc & Dc & Sc).
  destruct (octet_text z2 Ho2) as (Nd & Dd & Sd).
  destruct (prefix_text p Hp) as (Np & Sp & Ep).
  assert (Hfields : Forall (fun f => occurrences "." f = 0%nat)
                      (map JS.toString [z; z0; z1; z2]))
    by (repeat constructor; assumption).
  assert (Hslash : occurrences "/" (JS.join "." [z; z0; z1; z2]) = 0%nat).
  { unfold JS.join. cbn [map String.concat].
    rewrite !occurrences_app, Sa, Sb, Sc, Sd. reflexivity. }
  unfold parseCIDR. cbv zeta.
  change (JS.join "." [z; z0; z1; z2] ++ "/" ++ JS.toString p)
    with (JS.join "." [z; z0; z1; z2] ++ String "/" (JS.toString p)).
  rewrite (split_app_sep "/" _ _ Hslash), (split_no_sep "/" _ Sp).
  cbn [nth_error falsy elementOr]. rewrite join4_nonempty, Ep. cbn [orb].
  rewrite Np.
  assert (Hin : JSNumber.isNaN (Finite (inject_Z p)) || JSNumber.lt (Finite (inject_Z p)) 0
                || JSNumber.gt (Finite (inject_Z p)) 32 = false).
  { cbn [JSNumber.isNaN JSNumber.lt JSNumber.gt orb].
    assert (H0 : Qle_bool 0 (inject_Z p) = true)
      by (apply Qle_bool_iff; change 0%Q with (inject_Z 0); rewrite <- Zle_Qle; lia).
    assert (H32 : Qle_bool (inject_Z p) 32 = true)
      by (apply Qle_bool_iff; change 32%Q with (inject_Z 32); rewrite <- Zle_Qle; lia).
    rewrite H0, H32. reflexivity. }
  rewrite Hin.
  assert (Hsplit : JSString.split "." (JS.join "." [z; z0; z1; z2])
                   = map JS.toString [z; z0; z1; z2])
    by (apply (split_concat "."); [discriminate | exact Hfields]).
  rewrite !Hsplit.
  cbn [map]. rewrite Na, Nb, Nc, Nd.
  cbn [List.length Nat.eqb negb orb existsb JSNumber.isNaN JSNumber.lt JSNumber.gt].
  assert (Hoct : forall o, 0 <= o <= 255 ->
            negb (Qle_bool 0 (inject_Z o)) || negb (Qle_bool (inject_Z o) 255) = false).
  { intros o Hb.
    assert (H0 : Qle_bool 0 (inject_Z o) = true)
      by (apply Qle_bool_iff; change 0%Q with (inject_Z 0); rewrite <- Zle_Qle; lia).
    assert (H255 : Qle_bool (inject_Z o) 255 = true)
      by (apply Qle_bool_iff; change 255%Q with (inject_Z 255); rewrite <- Zle_Qle; lia).
    rewrite H0, H255. reflexivity. }
  rewrite !Hoct by assumption. reflexivity.
Qed.

(** X15.  [parseCIDR] reads back what the program prints: for a well-formed
    address and a prefix length from 0 to 32, the text "a.b.c.d/p" made with
    [join] and the decimal form of [p] (the form of every [network] field)
    parses to exactly these four octets and this prefix length. *)
Theorem parseCIDR_of_printed_network ip p :
  validAddress ip -> 0 <= p <= 32 ->
  parseCIDR (JS.join "." ip ++ "/" ++ JS.toString p)
  = Ok {| cidr_ip := map (fun o => Finite (inject_Z o)) ip;
          cidr_prefixLength := Finite (inject_Z p) |}.
Proof.
  intros H Hp. octets_of H. cbn [map].
  apply parseCIDR_printed; assumption.
Qed.

Lemma parseCIDR_of_printed_network_witness :
  validAddress [192; 168; 1; 64] /\ 0 <= 27 <= 32
  /\ JS.join "." [192; 168; 1; 64] ++ "/" ++ JS.toString 27 = "192.168.1.64/27"
  /\ parseCIDR (JS.join "." [192; 168; 1; 64] ++ "/" ++ JS.toString 27)
     = Ok {| cidr_ip := [Finite 192%Q; Finite 168%Q; Finite 1%Q; Finite 64%Q];
             cidr_prefixLength := Finite 27%Q |}.
Proof.
  assert (Hv : validAddress [192; 168; 1; 64])
    by (split; [reflexivity | repeat constructor; lia]).
  assert (Hp : 0 <= 27 <= 32) by lia.
  split; [exact Hv|]. split; [exact Hp|]. split; [reflexivity|].
  exact (parseCIDR_of_printed_network [192; 168; 1; 64] 27 Hv Hp).
Defined.

(** X16.  Every network text of a successful allocation is itself accepted
    by [parseCIDR], which returns the row's start address and prefix length:
    an entry of the plan can be fed back as a base network. *)
Theorem emitted_network_parses ip P hs rows r :
  allocate ip P hs = Ok rows -> In r rows ->
  parseCIDR (network (row_details r))
  = Ok {| cidr_ip := map (fun o => Finite (inject_Z o)) (row_network r);
          cidr_prefixLength := Finite (inject_Z (row_prefixLength r)) |}.
Proof.
  intros Halloc Hin.
  destruct (allocate_rows ip P hs rows Halloc) as (-> & _ & Hsized & _ & _).
  apply In_nth_error in Hin. destruct Hin as (k & Hk).
  apply allocateFrom_nth_inv in Hk. destruct Hk as (s & Hs & ->).
  set (c := ipToInt ip + sizeSum (firstn k (JS.sort bySizeDesc (requiredSubnets hs)))).
  destruct (allocateOne_fields c s (0 + k)) as (_ & _ & Hn & Hp & _ & _ & Hnet & _).
  rewrite Hn, Hp, Hnet.
  apply nth_error_In in Hs.
  destruct (proj1 (Forall_forall _ _) Hsized s Hs) as (_ & _ & Hrange).
  generalize (intToIp_valid c). generalize (intToIp c). intros octets Hv.
  octets_of Hv. cbn [map]. apply parseCIDR_printed; assumption.
Qed.

Lemma emitted_network_parses_witness :
  exists rows r,
    allocate [192; 168; 1; 0] 24 [50; 20] = Ok rows /\ In r rows
    /\ network (row_details r) = "192.168.1.64/27"
    /\ parseCIDR (network (row_details r))
       = Ok {| cidr_ip := [Finite 192%Q; Finite 168%Q; Finite 1%Q; Finite 64%Q];
               cidr_prefixLength := Finite 27%Q |}.
Proof.
  assert (Ha : allocate [192; 168; 1; 0] 24 [50; 20]
               = Ok (allocateFrom (ipToInt [192; 168; 1; 0]) 0
                       (JS.sort bySizeDesc (requiredSubnets [50; 20]))))
    by (rewrite allocate_unfold; reflexivity).
  assert (Hin : In (allocateOne (ipToInt [192; 168; 1; 0] + 64) (mkSubnet 20 27 32) 1)
                  (allocateFrom (ipToInt [192; 168; 1; 0]) 0
                     (JS.sort bySizeDesc (requiredSubnets [50; 20]))))
    by (right; left; reflexivity).
  eexists. eexists. split; [exact Ha|]. split; [exact Hin|].
  split; [vm_compute; reflexivity|].
  rewrite (emitted_network_parses [192; 168; 1; 0] 24 [50; 20] _ _ Ha Hin).
  vm_compute. reflexivity.
Defined.

(** ** The host requirements field *)

Section HostFields.

Lemma isWhite_trimStart s :
  (forall c, occurrences c s <> 0%nat -> JSString.isWhite c = true) ->
  JSString.trimStart s = "".
Proof.
  induction s as [|d s IH]; intros Hw; [reflexivity|].
  cbn [JSString.trimStart].
  rewrite (Hw d) by (cbn [occurrences]; rewrite Ascii.eqb_refl; discriminate).
  apply IH. intros c Hc. apply Hw. cbn [occurrences]. lia.
Qed.

(** A field of white space only, the empty field among them, is the
    number 0. *)
Lemma Number_blank s :
  (forall c, occurrences c s <> 0%nat -> JSString.isWhite c = true) ->
  JSNumber.Number s = Finite 0.
Proof.
  intros Hw. unfold JSNumber.Number, JSString.trim. cbv zeta.
  rewrite (isWhite_trimStart s Hw). reflexivity.
Qed.

End HostFields.

(** X17.  The host requirements text gives one requirement per
    comma-separated field, in order, so never an empty list: it is an error
    exactly when some field is not numeric, and otherwise the list of the
    fields' numbers, where a field that is empty or all white space counts as
    a requirement for 0 hosts. *)
Theorem parseHostRequirements_fields fields :
  fields <> [] -> Forall (fun f => occurrences "," f = 0%nat) fields ->
  let input := String.concat "," fields in
  (parseHostRequirements input = Throw invalidHosts
   <-> exists f, In f fields /\ JSNumber.Number f = NaN)
  /\ ((forall f, In f fields -> JSNumber.Number f <> NaN) ->
      parseHostRequirements input = Ok (map JSNumber.Number fields))
  /\ (forall l, parseHostRequirements input = Ok l ->
        l = map JSNumber.Number fields /\ l <> []
        /\ forall k f, nth_error fields k = Some f ->
             (forall c, occurrences c f <> 0%nat -> JSString.isWhite c = true) ->
             nth_error l k = Some (Finite 0)).
Proof.
  intros Hne Hall input. unfold parseHostRequirements. cbv zeta. subst input.
  rewrite (split_concat "," fields Hne Hall).
  destruct (existsb JSNumber.isNaN (map JSNumber.Number fields)) eqn:Hex.
  - apply existsb_exists in Hex. destruct Hex as (x & Hx & Hnan).
    apply in_map_iff in Hx. destruct Hx as (f & <- & Hf).
    assert (E : JSNumber.Number f = NaN)
      by (destruct (JSNumber.Number f); try discriminate Hnan; reflexivity).
    split; [split; [intros _; exists f; split; assumption | reflexivity]|].
    split; [intros Hnone; exfalso; exact (Hnone f Hf E)|].
    intros l Hl. discriminate Hl.
  - assert (Hnone : forall f, In f fields -> JSNumber.Number f <> NaN).
    { intros f Hf E.
      assert (Hc : existsb JSNumber.isNaN (map JSNumber.Number fields) = true).
      { apply existsb_exists. exists (JSNumber.Number f).
        split; [apply in_map; exact Hf | rewrite E; reflexivity]. }
      rewrite Hc in Hex. discriminate Hex. }
    split; [split; [discriminate | intros (f & Hf & E); exfalso; exact (Hnone f Hf E)]|].
    split; [reflexivity|].
    intros l Hl. injection Hl as <-. split; [reflexivity|]. split.
    + destruct fields; [contradiction Hne; reflexivity | discriminate].
    + intros k f Hk Hblank. rewrite nth_error_map, Hk. cbn [option_map].
      rewrite (Number_blank f Hblank). reflexivity.
Qed.

Lemma parseHostRequirements_fields_witness :
  ["50"; ""; " 20"] <> []
  /\ Forall (fun f => occurrences "," f = 0%nat) ["50"; ""; " 20"]
  /\ String.concat "," ["50"; ""; " 20"] = "50,, 20"
  /\ parseHostRequirements (String.concat "," ["50"; ""; " 20"])
     = Ok [Finite 50%Q; Finite 0%Q; Finite 20%Q].
Proof.
  assert (Hne : ["50"; ""; " 20"] <> []) by discriminate.
  assert (Hall : Forall (fun f => occurrences "," f = 0%nat) ["50"; ""; " 20"])
    by (repeat constructor).
  split; [exact Hne|]. split; [exact Hall|]. split; [reflexivity|].
  destruct (parseHostRequirements_fields ["50"; ""; " 20"] Hne Hall) as (_ & Hok & _).
  rewrite Hok.
  - vm_compute. reflexivity.
  - intros f [<-|[<-|[<-|[]]]]; vm_compute; discriminate.
Defined.

(** ** Numbers that [parseInt] can return *)

Section Floats.

Local Open Scope Q_scope.

Lemma roundHalfEven_ge x : (Qfloor x <= JSNumber.roundHalfEven x)%Z.
Proof.
  unfold JSNumber.roundHalfEven. cbv zeta.
  destruct (Qcompare _ _); [destruct (Z.even _)|..]; lia.
Qed.

(** An integer of magnitude 64 or more is converted to a number below 0 or
    above 32, whatever the rounding does. *)
Lemma ofZ_large n :
  (64 <= Z.abs n)%Z ->
  JSNumber.lt (JSNumber.ofZ n) 0 || JSNumber.gt (JSNumber.ofZ n) 32 = true.
Proof.
  intros Hn. unfold JSNumber.ofZ, JSNumber.ofReal.
  destruct (Qeq_bool (inject_Z n) 0) eqn:Hz.
  { apply Qeq_bool_eq in Hz. unfold Qeq in Hz. cbn in Hz. lia. }
  cbv zeta. change (Qabs (inject_Z n)) with (inject_Z (Z.abs n)).
  set (A := Z.abs n) in *.
  set (e := Z.max (JSNumber.floorLog2 (inject_Z A)) (-1022)).
  assert (He : (5 <= e <= Z.log2 A)%Z).
  { subst e. unfold JSNumber.floorLog2. cbn [Qnum Qden inject_Z].
    change (Z.log2 1) with 0%Z. rewrite Z.sub_0_r.
    assert (6 <= Z.log2 A)%Z
      by (change 6%Z with (Z.log2 64); apply Z.log2_le_mono; lia).
    destruct (Qle_bool _ _); lia. }
  assert (HA : 2 ^ e <= inject_Z A).
  { change 2 with (inject_Z 2). rewrite <- Zpower_Qpower by lia. rewrite <- Zle_Qle.
    apply Z.le_trans with (2 ^ Z.log2 A)%Z; [apply Z.pow_le_mono_r; lia|].
    apply Z.log2_spec. lia. }
  set (P := 2 ^ (52 - e)). set (Pinv := 2 ^ (e - 52)).
  set (x := inject_Z A * P). set (m := JSNumber.roundHalfEven x).
  set (v := inject_Z m * Pinv).
  assert (HPinv : 0 < Pinv) by (apply Qpower_0_lt; reflexivity).
  assert (HPP : P * Pinv == 1).
  { unfold P, Pinv. rewrite <- Qpower_plus by discriminate.
    replace (52 - e + (e - 52))%Z with 0%Z by lia. reflexivity. }
  assert (Hm : inject_Z (Qfloor x) <= inject_Z m)
    by (rewrite <- Zle_Qle; apply roundHalfEven_ge).
  assert (HA64 : 64 <= inject_Z A)
    by (change 64 with (inject_Z 64); rewrite <- Zle_Qle; exact Hn).
  assert (Hv : 32 < v).
  { unfold v. destruct (Z.le_gt_cases e 52) as [Hle|Hgt].
    - assert (Hone : Pinv <= 1).
      { unfold Pinv. change 1 with (2 ^ 0).
        apply Qpower_le_compat_l; [lia | discriminate]. }
      pose proof (Qlt_floor x) as Hfl. rewrite inject_Z_plus in Hfl.
      change (inject_Z 1) with 1 in Hfl.
      assert (Hx : x - 1 < inject_Z m) by lra.
      apply (Qmult_lt_compat_r _ _ Pinv HPinv) in Hx.
      assert (E : (x - 1) * Pinv == inject_Z A * (P * Pinv) - Pinv)
        by (unfold x; ring).
      rewrite E, HPP in Hx. lra.
    - assert (Hone : 1 <= Pinv).
      { unfold Pinv. change 1 with (2 ^ 0).
        apply Qpower_le_compat_l; [lia | discriminate]. }
      assert (Hx : inject_Z (2 ^ 52) <= x).
      { unfold x. rewrite Zpower_Qpower by lia. change (inject_Z 2) with 2.
        apply Qle_trans with (2 ^ e * P).
        - unfold P. rewrite <- Qpower_plus by discriminate.
          replace (e + (52 - e))%Z with 52%Z by lia. apply Qle_refl.
        - apply Qmult_le_compat_r; [exact HA | apply Qlt_le_weak, Qpower_0_lt; reflexivity]. }
      apply Qfloor_resp_le in Hx. rewrite Qfloor_Z in Hx.
      assert (Hm52 : inject_Z (2 ^ 52) <= inject_Z m).
      { rewrite <- Zle_Qle. apply Z.le_trans with (Qfloor x); [exact Hx|].
        apply roundHalfEven_ge. }
      change (inject_Z (2 ^ 52)) with 4503599627370496 in Hm52.
      assert (Hprod : inject_Z m * 1 <= inject_Z m * Pinv)
        by (apply Qmult_le_l; [lra | exact Hone]).
      lra. }
  clearbody v. clear - Hv.
  destruct (Qle_bool (2 ^ 1024) v); destruct (Qle_bool 0 (inject_Z n));
    cbn [negb JSNumber.lt JSNumber.gt orb]; try reflexivity.
  - destruct (Qle_bool 0 (Qred v)); cbn [negb orb]; [|reflexivity].
    destruct (Qle_bool (Qred v) 32) eqn:Hc; [|reflexivity].
    apply Qle_bool_iff in Hc. rewrite Qred_correct in Hc. lra.
  - destruct (Qle_bool 0 (Qred (- v))) eqn:Hc; [|reflexivity].
    apply Qle_bool_iff in Hc. rewrite Qred_correct in Hc. lra.
Qed.


(** Between -64 and 64 the conversion is exact, so passing the prefix checks
    means being one of 0, ..., 32. *)
Lemma ofZ_small n :
  (-64 < n < 64)%Z ->
  JSNumber.isNaN (JSNumber.ofZ n) || JSNumber.lt (JSNumber.ofZ n) 0
  || JSNumber.gt (JSNumber.ofZ n) 32 = false ->
  JSNumber.ofZ n = Finite (inject_Z n) /\ (0 <= n <= 32)%Z.
Proof.
  intros Hn.
  assert (E : n = (Z.of_nat (Z.to_nat (n + 63)) - 63)%Z) by lia.
  revert E. generalize (Z.to_nat (n + 63)). intros k E. subst n.
  do 127 (destruct k as [|k];
          [vm_compute; intros Hc; first [discriminate Hc | repeat split];
           intros Hd; discriminate Hd|]).
  lia.
Qed.

Lemma parseInt_shape s :
  JSNumber.parseInt s = NaN \/ exists n, JSNumber.parseInt s = JSNumber.ofZ n.
Proof.
  unfold JSNumber.parseInt. cbv zeta.
  destruct (JSNumber.signOf (JSString.trimStart s)) as [sign input].
  match goal with
  | |- context [let '(_, _) := ?M in _] => destruct M as [radix input0]
  end.
  destruct (JSString.spanDigits radix input0) as [digits rest].
  destruct (JSString.isEmpty digits); [left | right; eexists]; reflexivity.
Qed.

End Floats.

(** X18.  Whatever [parseCIDR] returns is in range: exactly four octets,
    each a finite number between 0 and 255, and a prefix length that is one
    of the integers 0, ..., 32.  (An octet need not be an integer; the prefix
    length always is, since it comes from [parseInt].) *)
Theorem parseCIDR_result_in_range subnet c :
  parseCIDR subnet = Ok c ->
  List.length (cidr_ip c) = 4%nat
  /\ Forall (fun o => exists q, o = Finite q /\ (0 <= q <= 255)%Q) (cidr_ip c)
  /\ exists n, cidr_prefixLength c = Finite (inject_Z n) /\ 0 <= n <= 32.
Proof.
  unfold parseCIDR. cbv zeta.
  destruct (falsy _ || falsy _); [discriminate|].
  set (pl := JSNumber.parseInt _).
  destruct (JSNumber.isNaN pl || JSNumber.lt pl 0 || JSNumber.gt pl 32) eqn:Hp;
    [discriminate|].
  set (octets := map JSNumber.Number _).
  destruct (negb (Nat.eqb (List.length octets) 4) || existsb _ octets) eqn:Ho;
    [discriminate|].
  intros E. injection E as <-. cbn [cidr_ip cidr_prefixLength].
  apply orb_false_elim in Ho. destruct Ho as [Hlen Hex].
  split; [apply Nat.eqb_eq; destruct (Nat.eqb (List.length octets) 4);
          [reflexivity | discriminate Hlen]|].
  split.
  - apply Forall_forall. intros o Hin.
    assert (Hb : JSNumber.isNaN o || JSNumber.lt o 0 || JSNumber.gt o 255 = false).
    { destruct (JSNumber.isNaN o || JSNumber.lt o 0 || JSNumber.gt o 255) eqn:Hb;
        [|reflexivity].
      assert (Hc : existsb (fun o => JSNumber.isNaN o || JSNumber.lt o 0
                                     || JSNumber.gt o 255) octets = true)
        by (apply existsb_exists; exists o; split; assumption).
      rewrite Hc in Hex. discriminate Hex. }
    destruct o as [|negative|q]; cbn [JSNumber.isNaN JSNumber.lt JSNumber.gt orb] in Hb.
    + discriminate Hb.
    + destruct negative; discriminate Hb.
    + exists q. split; [reflexivity|].
      apply orb_false_elim in Hb. destruct Hb as [H0 H255].
      split; apply Qle_bool_iff.
      * destruct (Qle_bool 0 q); [reflexivity | discriminate H0].
      * destruct (Qle_bool q 255); [reflexivity | discriminate H255].
  - destruct (parseInt_shape (elementOr (nth_error (JSString.split "/" subnet) 1)))
      as [Hnan|(n & Hn)]; fold pl in Hnan || fold pl in Hn.
    + rewrite Hnan in Hp. discriminate Hp.
    + rewrite Hn in Hp |- *. exists n.
      destruct (Z.lt_ge_cases (Z.abs n) 64) as [Hsmall|Hlarge].
      * apply ofZ_small; [lia | exact Hp].
      * pose proof (ofZ_large n Hlarge) as Hc.
        destruct (JSNumber.isNaN (JSNumber.ofZ n)); [discriminate Hp|].
        cbn [orb] in Hp. rewrite Hc in Hp. discriminate Hp.
Qed.

Lemma parseCIDR_result_in_range_witness :
  parseCIDR "172.16.0.9/12"
  = Ok {| cidr_ip := [Finite 172%Q; Finite 16%Q; Finite 0%Q; Finite 9%Q];
          cidr_prefixLength := Finite 12%Q |}
  /\ exists n, Finite 12%Q = Finite (inject_Z n) /\ 0 <= n <= 32.
Proof.
  assert (E : parseCIDR "172.16.0.9/12"
              = Ok {| cidr_ip := [Finite 172%Q; Finite 16%Q; Finite 0%Q; Finite 9%Q];
                      cidr_prefixLength := Finite 12%Q |})
    by (vm_compute; reflexivity).
  split; [exact E|].
  exact (proj2 (proj2 (parseCIDR_result_in_range _ _ E))).
Defined.

(** ** Blocks *)

(** X19.  On an aligned base with no negative host count the plan leaves no
    gap: each row starts at the address right after the broadcast address of
    the row before it, and the first row starts at the base address. *)
Theorem aligned_rows_are_contiguous ip P hs rows k r r' :
  validAddress ip -> 0 <= P <= 32 -> addressValue ip mod blockSize P = 0 ->
  Forall (fun h => 0 <= h) hs ->
  allocate ip P hs = Ok rows ->
  nth_error rows k = Some r -> nth_error rows (S k) = Some r' ->
  rangeLow r' = rangeHigh r + 1
  /\ (k = 0%nat -> rangeLow r = addressValue ip).
Proof.
  intros Hip HP Halign Hhs Halloc Hr Hr'.
  destruct (allocate_rows ip P hs rows Halloc) as (Hrows & _).
  rewrite Hrows in Hr, Hr'.
  apply allocateFrom_nth_inv in Hr. destruct Hr as (s & Hs & ->).
  apply allocateFrom_nth_inv in Hr'. destruct Hr' as (s' & Hs' & ->).
  destruct (aligned_start ip P hs rows k s Hip HP Halign Hhs Halloc Hs)
    as (Hp & Hsz & _ & _ & _ & Hlow & Hmod).
  destruct (aligned_start ip P hs rows (S k) s' Hip HP Halign Hhs Halloc Hs')
    as (_ & _ & _ & _ & _ & Hlow' & _).
  pose proof (sizeSum_firstn_step _ k s Hs) as Hstep.
  set (l := JS.sort bySizeDesc (requiredSubnets hs)) in *.
  destruct (allocateOne_fields (ipToInt ip + sizeSum (firstn k l)) s (0 + k))
    as (_ & _ & Hn & Hpr & Hb & _).
  destruct (allocateOne_fields (ipToInt ip + sizeSum (firstn (S k) l)) s' (0 + S k))
    as (_ & _ & Hn' & _).
  unfold rangeLow, rangeHigh. rewrite Hn, Hn', Hb, Hlow'.
  rewrite broadcast_closed by (apply intToIp_valid || lia).
  rewrite Hlow, Hmod. split; [lia|].
  intros ->. change (sizeSum (firstn 0 l)) with 0. lia.
Qed.

Lemma aligned_rows_are_contiguous_witness :
  exists rows r r',
    validAddress [192; 168; 1; 0] /\ 0 <= 24 <= 32
    /\ addressValue [192; 168; 1; 0] mod blockSize 24 = 0
    /\ Forall (fun h => 0 <= h) [20; 50]
    /\ allocate [192; 168; 1; 0] 24 [20; 50] = Ok rows
    /\ nth_error rows 0 = Some r /\ nth_error rows 1 = Some r'
    /\ rangeLow r' = rangeHigh r + 1.
Proof.
  assert (Hv : validAddress [192; 168; 1; 0])
    by (split; [reflexivity | repeat constructor; lia]).
  assert (HP : 0 <= 24 <= 32) by lia.
  assert (Hal : addressValue [192; 168; 1; 0] mod blockSize 24 = 0) by reflexivity.
  assert (Hh : Forall (fun h => 0 <= h) [20; 50]) by (repeat constructor; lia).
  assert (Ha : allocate [192; 168; 1; 0] 24 [20; 50]
               = Ok (allocateFrom (ipToInt [192; 168; 1; 0]) 0
                       (JS.sort bySizeDesc (requiredSubnets [20; 50]))))
    by (rewrite allocate_unfold; reflexivity).
  assert (Hr : nth_error (allocateFrom (ipToInt [192; 168; 1; 0]) 0
                            (JS.sort bySizeDesc (requiredSubnets [20; 50]))) 0
               = Some (allocateOne (ipToInt [192; 168; 1; 0]) (mkSubnet 50 26 64) 0))
    by reflexivity.
  assert (Hr' : nth_error (allocateFrom (ipToInt [192; 168; 1; 0]) 0
                             (JS.sort bySizeDesc (requiredSubnets [20; 50]))) 1
                = Some (allocateOne (ipToInt [192; 168; 1; 0] + 64) (mkSubnet 20 27 32) 1))
    by reflexivity.
  eexists. eexists. eexists.
  split; [exact Hv|]. split; [exact HP|]. split; [exact Hal|]. split; [exact Hh|].
  split; [exact Ha|]. split; [exact Hr|]. split; [exact Hr'|].
  exact (proj1 (aligned_rows_are_contiguous [192; 168; 1; 0] 24 [20; 50] _ 0%nat _ _
                  Hv HP Hal Hh Ha Hr Hr')).
Defined.

(** X20.  Network address, broadcast address and usable range belong to the
    block, not to the address: two well-formed addresses in the same block of
    a prefix length from 0 to 31 give the same three results. *)
Theorem same_block_same_results a b p :
  validAddress a -> validAddress b -> 0 <= p <= 31 ->
  addressValue a / blockSize p = addressValue b / blockSize p ->
  calculateNetworkAddress a p = calculateNetworkAddress b p
  /\ calculateBroadcastAddress a p = calculateBroadcastAddress b p
  /\ usableRange a p = usableRange b p.
Proof.
  intros Ha Hb Hp Hblock.
  pose proof (blockSize_pos p ltac:(lia)) as Hs.
  assert (Hclear : addressValue a - addressValue a mod blockSize p
                   = addressValue b - addressValue b mod blockSize p).
  { rewrite !Z.mod_eq by lia. rewrite Hblock. lia. }
  assert (HN : calculateNetworkAddress a p = calculateNetworkAddress b p).
  { rewrite (calculateNetworkAddress_intToIp a), (calculateNetworkAddress_intToIp b).
    rewrite intToIp_canonical, (intToIp_canonical (ipToInt b .& mask p)).
    rewrite <- !calculateNetworkAddress_intToIp.
    rewrite !network_closed by assumption. rewrite Hclear. reflexivity. }
  assert (HB : calculateBroadcastAddress a p = calculateBroadcastAddress b p).
  { rewrite (calculateBroadcastAddress_intToIp a), (calculateBroadcastAddress_intToIp b).
    rewrite intToIp_canonical, (intToIp_canonical (ipToInt b .| .~ mask p)).
    rewrite <- !calculateBroadcastAddress_intToIp.
    rewrite !broadcast_closed by assumption. rewrite Hclear. reflexivity. }
  split; [exact HN|]. split; [exact HB|].
  rewrite !usableRange_unfold. cbv zeta. rewrite HN, HB. reflexivity.
Qed.

Lemma same_block_same_results_witness :
  validAddress [192; 168; 1; 70] /\ validAddress [192; 168; 1; 90]
  /\ 0 <= 27 <= 31
  /\ addressValue [192; 168; 1; 70] / blockSize 27
     = addressValue [192; 168; 1; 90] / blockSize 27
  /\ usableRange [192; 168; 1; 70] 27 = usableRange [192; 168; 1; 90] 27.
Proof.
  assert (Ha : validAddress [192; 168; 1; 70])
    by (split; [reflexivity | repeat constructor; lia]).
  assert (Hb : validAddress [192; 168; 1; 90])
    by (split; [reflexivity | repeat constructor; lia]).
  assert (Hp : 0 <= 27 <= 31) by lia.
  assert (Hq : addressValue [192; 168; 1; 70] / blockSize 27
               = addressValue [192; 168; 1; 90] / blockSize 27) by reflexivity.
  split; [exact Ha|]. split; [exact Hb|]. split; [exact Hp|]. split; [exact Hq|].
  exact (proj2 (proj2 (same_block_same_results _ _ 27 Ha Hb Hp Hq))).
Defined.
